(** * Unscented Kalman filter (src/ukf.cpp): a shallow embedding

    The estimator of [src/ukf.cpp] is translated function by function.

    - A C++ [double] is a value of [double]: either a finite number, kept
      as an exact real ([Fin r], no rounding and no overflow), or [NaN],
      the outcome of an operation that has no finite result (0/0, the
      square root of a negative number).  An operation with a [NaN]
      operand gives [NaN], and every comparison with [NaN] is false, as in
      IEEE 754.  The infinities are not represented: a division of a
      non-zero number by zero also gives [NaN].  Rounding is looked at
      in one place only, the angle normalisation loops, whose tests and
      bodies are given a second time on binary64 numbers ([Binary64]).
    - [VectorXd] is a list of doubles, [MatrixXd] a list of rows; the
      sigma-point matrices, which the source only reads and writes by
      column, are kept as the list of their columns.
    - The member functions mutate the estimator: here they take the
      object as a record and return the new record.
    - Eigen's [llt().matrixL()] and [inverse()] are library code; they are
      given by the algorithm of the library (unblocked Cholesky) and by
      the adjugate formula of the exact inverse. *)

From Stdlib Require Import Reals Lra Lia List ZArith Bool Arith Psatz.
From Stdlib Require Floats.
Import ListNotations.

Set Implicit Arguments.

(** ** Scalars *)

Inductive double : Type :=
| Fin (r : R)
| NaN.

Module Dbl.

Local Open Scope R_scope.

Definition lift1 (f : R -> R) (x : double) : double :=
  match x with Fin a => Fin (f a) | NaN => NaN end.

Definition lift2 (f : R -> R -> R) (x y : double) : double :=
  match x, y with Fin a, Fin b => Fin (f a b) | _, _ => NaN end.

Definition add := lift2 Rplus.
Definition sub := lift2 Rminus.
Definition mul := lift2 Rmult.

(** [x / y]: no finite result when the divisor is zero. *)
Definition div (x y : double) : double :=
  match x, y with
  | Fin a, Fin b => if Req_dec_T b 0 then NaN else Fin (a / b)
  | _, _ => NaN
  end.

(** [sqrt(x)] of <cmath>. *)
Definition sqrt (x : double) : double :=
  match x with
  | Fin a => if Rlt_dec a 0 then NaN else Fin (R_sqrt.sqrt a)
  | NaN => NaN
  end.

Definition sin := lift1 Rtrigo_def.sin.
Definition cos := lift1 Rtrigo_def.cos.
Definition fabs := lift1 Rabs.

(** [atan2(y, x)] on finite reals, with atan2(0, 0) = 0. *)
Definition Ratan2 (y x : R) : R :=
  if Rlt_dec 0 x then atan (y / x)
  else if Rlt_dec x 0 then
         (if Rlt_dec y 0 then atan (y / x) - PI else atan (y / x) + PI)
  else if Rlt_dec 0 y then PI / 2
  else if Rlt_dec y 0 then - (PI / 2)
  else 0.

Definition atan2 := lift2 Ratan2.

(** [x > y] and [x < y]: false as soon as an operand is [NaN]. *)
Definition gt (x y : double) : bool :=
  match x, y with
  | Fin a, Fin b => if Rlt_dec b a then true else false
  | _, _ => false
  end.

Definition lt (x y : double) : bool := gt y x.

(** [x <= y]. *)
Definition le (x y : double) : bool :=
  match x, y with
  | Fin a, Fin b => if Rle_dec a b then true else false
  | _, _ => false
  end.

(** Conversion of an integer ([int], [long long]) to [double]. *)
Definition of_int (z : Z) : double := Fin (IZR z).

Definition M_PI : double := Fin PI.
Definition zero : double := Fin 0.

End Dbl.

Declare Scope dbl_scope.
Delimit Scope dbl_scope with D.
Bind Scope dbl_scope with double.
Infix "+" := Dbl.add : dbl_scope.
Infix "-" := Dbl.sub : dbl_scope.
Infix "*" := Dbl.mul : dbl_scope.
Infix "/" := Dbl.div : dbl_scope.
Infix ">?" := Dbl.gt (at level 70) : dbl_scope.
Infix "<?" := Dbl.lt (at level 70) : dbl_scope.

(** ** Eigen vectors and matrices *)

Module Eigen.

Local Open Scope dbl_scope.

Definition VectorXd := list double.

(** A matrix as the list of its rows. *)
Definition MatrixXd := list (list double).

(** A matrix that is only used column by column ([M.col(i)]), as the
    list of its columns. *)
Definition Columns := list VectorXd.

(** [v(i)]; reading past the end is undefined in C++, the model reads
    [NaN] there. *)
Definition coeff (v : VectorXd) (i : nat) : double := nth i v NaN.

(** [M(i, j)] of a matrix kept by rows. *)
Definition mcoeff (M : list (list double)) (i j : nat) : double :=
  coeff (nth i M []) j.

(** [v(i) = a]. *)
Fixpoint set_coeff (i : nat) (a : double) (v : VectorXd) : VectorXd :=
  match v, i with
  | [], _ => []
  | _ :: t, O => a :: t
  | h :: t, S j => h :: set_coeff j a t
  end.

(** [M.col(i)] of a matrix kept by columns. *)
Definition col (M : Columns) (i : nat) : VectorXd := nth i M [].

Fixpoint map2 {A B C} (f : A -> B -> C) (l : list A) (m : list B) : list C :=
  match l, m with
  | a :: l', b :: m' => f a b :: map2 f l' m'
  | _, _ => []
  end.

(** [v.fill(a)] on a vector of size [n]. *)
Definition fill (n : nat) (a : double) : VectorXd := repeat a n.
Definition mfill (r c : nat) (a : double) : MatrixXd := repeat (fill c a) r.

Definition vadd : VectorXd -> VectorXd -> VectorXd := map2 Dbl.add.
Definition vsub : VectorXd -> VectorXd -> VectorXd := map2 Dbl.sub.
Definition vscale (a : double) (v : VectorXd) : VectorXd := map (Dbl.mul a) v.

Definition madd : MatrixXd -> MatrixXd -> MatrixXd := map2 vadd.
Definition msub : MatrixXd -> MatrixXd -> MatrixXd := map2 vsub.

(** [a.transpose() * b] of two vectors. *)
Fixpoint dot (a b : VectorXd) : double :=
  match a, b with
  | x :: a', y :: b' => x * y + dot a' b'
  | _, _ => Fin 0
  end.

(** [a * b.transpose()]. *)
Definition outer (a b : VectorXd) : MatrixXd :=
  map (fun x => map (fun y => x * y) b) a.

Definition ncols (M : MatrixXd) : nat := length (hd [] M).

(** Column [j] of a matrix kept by rows. *)
Definition mcol (M : MatrixXd) (j : nat) : VectorXd :=
  map (fun r => coeff r j) M.

Definition transpose (M : MatrixXd) : MatrixXd :=
  map (mcol M) (seq 0 (ncols M)).

(** [M * v]. *)
Definition mvmul (M : MatrixXd) (v : VectorXd) : VectorXd :=
  map (fun r => dot r v) M.

(** [v.transpose() * M], as a vector. *)
Definition vmmul (v : VectorXd) (M : MatrixXd) : VectorXd :=
  map (fun c => dot v c) (transpose M).

(** [A * B]. *)
Definition mmul (A B : MatrixXd) : MatrixXd :=
  map (fun r => vmmul r B) A.

(** The diagonal matrix with the given diagonal. *)
Definition diag (d : VectorXd) : MatrixXd :=
  map (fun i => set_coeff i (coeff d i) (fill (length d) (Fin 0)))
      (seq 0 (length d)).

Definition mapi {A B} (f : nat -> A -> B) (l : list A) : list B :=
  map (fun p => f (fst p) (snd p)) (combine (seq 0 (length l)) l).

(** *** [llt().matrixL()]

    Eigen's unblocked Cholesky factorisation, in place on the lower
    triangle, column [k] after column [k-1]:
    [x = A(k,k) - |A(k,0..k-1)|^2]; the factorisation stops at the first
    [x <= 0]; otherwise [A(k,k) = sqrt(x)] and the rest of column [k]
    is [(A(i,k) - A(i,0..k-1) . A(k,0..k-1)) / sqrt(x)]. *)
Definition llt_column (k : nat) (mat : MatrixXd) (d : double) : MatrixXd :=
  let A10 := firstn k (nth k mat []) in
  mapi (fun i r =>
          if (i <? k)%nat then r
          else if (i =? k)%nat then set_coeff k d r
          else set_coeff k ((coeff r k - dot (firstn k r) A10) / d) r)
       mat.

Fixpoint llt_inplace (ks : list nat) (mat : MatrixXd) : MatrixXd :=
  match ks with
  | [] => mat
  | k :: ks' =>
      let A10 := firstn k (nth k mat []) in
      let x := mcoeff mat k k in
      let x := if (0 <? k)%nat then x - dot A10 A10 else x in
      if Dbl.le x Dbl.zero then mat
      else llt_inplace ks' (llt_column k mat (Dbl.sqrt x))
  end.

(** The lower triangular view, as a dense matrix. *)
Definition triangularLower (mat : MatrixXd) : MatrixXd :=
  mapi (fun i r => mapi (fun j a => if (j <=? i)%nat then a else Dbl.zero) r)
       mat.

Definition llt_matrixL (A : MatrixXd) : MatrixXd :=
  triangularLower (llt_inplace (seq 0 (length A)) A).

(** *** [inverse()]: the adjugate divided by the determinant. *)
Definition remove_nth {A} (j : nat) (l : list A) : list A :=
  firstn j l ++ skipn (S j) l.

Definition minor (i j : nat) (M : MatrixXd) : MatrixXd :=
  map (remove_nth j) (remove_nth i M).

Definition sign (k : nat) : double :=
  if Nat.even k then Fin 1 else Fin (-1).

(** Laplace expansion along the first row; [n] is the size. *)
Fixpoint det_n (n : nat) (M : MatrixXd) : double :=
  match n with
  | O => Fin 1
  | S n' =>
      fold_right
        (fun j acc => sign j * mcoeff M 0 j * det_n n' (minor 0 j M) + acc)
        (Fin 0) (seq 0 n)
  end.

Definition determinant (M : MatrixXd) : double := det_n (length M) M.

Definition cofactor (i j : nat) (M : MatrixXd) : double :=
  sign (i + j) * determinant (minor i j M).

Definition inverse (M : MatrixXd) : MatrixXd :=
  let n := length M in
  map (fun i => map (fun j => cofactor j i M / determinant M) (seq 0 n))
      (seq 0 n).

End Eigen.

Import Eigen.

(** ** The measurement package

    Modelled from the spec: [measurement_package.h] is not among the
    sources.  A package carries a sensor type, a timestamp in
    microseconds and the raw values.  The source compares the sensor type
    with [RADAR] and with [LASER] and has no branch for anything else;
    [UNKNOWN] stands for a sensor type that is neither. *)
Inductive SensorType : Type :=
| LASER
| RADAR
| UNKNOWN.

Record MeasurementPackage : Type := mkMeas {
  sensor_type_ : SensorType;
  timestamp_ : Z;
  raw_measurements_ : VectorXd
}.

(** ** The estimator object

    Modelled from the spec: [ukf.h] is not among the sources.  The
    fields are the members that [ukf.cpp] reads and writes, with the
    types it uses them at: the dimensions are [int]s, [time_us_] is an
    integer number of microseconds, and the two NIS histories are
    sequences of scalars that the source only extends with
    [push_back] and indexes. *)

Record UKF : Type := mkUKF {
  use_laser_ : bool;
  use_radar_ : bool;
  x_ : VectorXd;
  P_ : MatrixXd;
  std_a_ : double;
  std_yawdd_ : double;
  std_laspx_ : double;
  std_laspy_ : double;
  std_radr_ : double;
  std_radphi_ : double;
  std_radrd_ : double;
  is_initialized_ : bool;
  n_x_ : nat;
  n_aug_ : nat;
  n_sig_ : nat;
  lambda_ : double;
  weights_ : VectorXd;
  Xsig_pred_ : Columns;
  time_us_ : Z;
  nis_laser_ : list double;
  nis_radar_ : list double
}.

Definition set_x_ (v : VectorXd) (s : UKF) : UKF :=
  mkUKF (use_laser_ s) (use_radar_ s) v (P_ s) (std_a_ s) (std_yawdd_ s)
        (std_laspx_ s) (std_laspy_ s) (std_radr_ s) (std_radphi_ s)
        (std_radrd_ s) (is_initialized_ s) (n_x_ s) (n_aug_ s) (n_sig_ s)
        (lambda_ s) (weights_ s) (Xsig_pred_ s) (time_us_ s) (nis_laser_ s)
        (nis_radar_ s).

Definition set_P_ (M : MatrixXd) (s : UKF) : UKF :=
  mkUKF (use_laser_ s) (use_radar_ s) (x_ s) M (std_a_ s) (std_yawdd_ s)
        (std_laspx_ s) (std_laspy_ s) (std_radr_ s) (std_radphi_ s)
        (std_radrd_ s) (is_initialized_ s) (n_x_ s) (n_aug_ s) (n_sig_ s)
        (lambda_ s) (weights_ s) (Xsig_pred_ s) (time_us_ s) (nis_laser_ s)
        (nis_radar_ s).

Definition set_is_initialized_ (b : bool) (s : UKF) : UKF :=
  mkUKF (use_laser_ s) (use_radar_ s) (x_ s) (P_ s) (std_a_ s) (std_yawdd_ s)
        (std_laspx_ s) (std_laspy_ s) (std_radr_ s) (std_radphi_ s)
        (std_radrd_ s) b (n_x_ s) (n_aug_ s) (n_sig_ s)
        (lambda_ s) (weights_ s) (Xsig_pred_ s) (time_us_ s) (nis_laser_ s)
        (nis_radar_ s).

Definition set_weights_ (w : VectorXd) (s : UKF) : UKF :=
  mkUKF (use_laser_ s) (use_radar_ s) (x_ s) (P_ s) (std_a_ s) (std_yawdd_ s)
        (std_laspx_ s) (std_laspy_ s) (std_radr_ s) (std_radphi_ s)
        (std_radrd_ s) (is_initialized_ s) (n_x_ s) (n_aug_ s) (n_sig_ s)
        (lambda_ s) w (Xsig_pred_ s) (time_us_ s) (nis_laser_ s)
        (nis_radar_ s).

Definition set_Xsig_pred_ (X : Columns) (s : UKF) : UKF :=
  mkUKF (use_laser_ s) (use_radar_ s) (x_ s) (P_ s) (std_a_ s) (std_yawdd_ s)
        (std_laspx_ s) (std_laspy_ s) (std_radr_ s) (std_radphi_ s)
        (std_radrd_ s) (is_initialized_ s) (n_x_ s) (n_aug_ s) (n_sig_ s)
        (lambda_ s) (weights_ s) X (time_us_ s) (nis_laser_ s)
        (nis_radar_ s).

Definition set_time_us_ (t : Z) (s : UKF) : UKF :=
  mkUKF (use_laser_ s) (use_radar_ s) (x_ s) (P_ s) (std_a_ s) (std_yawdd_ s)
        (std_laspx_ s) (std_laspy_ s) (std_radr_ s) (std_radphi_ s)
        (std_radrd_ s) (is_initialized_ s) (n_x_ s) (n_aug_ s) (n_sig_ s)
        (lambda_ s) (weights_ s) (Xsig_pred_ s) t (nis_laser_ s)
        (nis_radar_ s).

Definition set_nis_laser_ (l : list double) (s : UKF) : UKF :=
  mkUKF (use_laser_ s) (use_radar_ s) (x_ s) (P_ s) (std_a_ s) (std_yawdd_ s)
        (std_laspx_ s) (std_laspy_ s) (std_radr_ s) (std_radphi_ s)
        (std_radrd_ s) (is_initialized_ s) (n_x_ s) (n_aug_ s) (n_sig_ s)
        (lambda_ s) (weights_ s) (Xsig_pred_ s) (time_us_ s) l
        (nis_radar_ s).

Definition set_nis_radar_ (l : list double) (s : UKF) : UKF :=
  mkUKF (use_laser_ s) (use_radar_ s) (x_ s) (P_ s) (std_a_ s) (std_yawdd_ s)
        (std_laspx_ s) (std_laspy_ s) (std_radr_ s) (std_radphi_ s)
        (std_radrd_ s) (is_initialized_ s) (n_x_ s) (n_aug_ s) (n_sig_ s)
        (lambda_ s) (weights_ s) (Xsig_pred_ s) (time_us_ s) (nis_laser_ s)
        l.

(** ** Loops and block writes used by the member functions *)

Local Open Scope dbl_scope.

(** The big-step meaning of [while (cond(x)) x = body(x);] on one scalar:
    [while_loop cond body x y] when the loop started at [x] exits with
    [y]. *)
Inductive while_loop (A : Type) (cond : A -> bool) (body : A -> A)
  : A -> A -> Prop :=
| while_exit : forall x, cond x = false -> while_loop cond body x x
| while_iter : forall x y,
    cond x = true -> while_loop cond body (body x) y ->
    while_loop cond body x y.

(** The same loop, run for at most [n] iterations. *)
Fixpoint iterate_while (cond : double -> bool) (body : double -> double)
  (n : nat) (x : double) : double :=
  match n with
  | O => x
  | S n' => if cond x then iterate_while cond body n' (body x) else x
  end.

Definition two_pi : double := Fin 2 * Dbl.M_PI.

(** A number of iterations after which both normalisation loops have
    exited: more than [|x| / 2 pi]. *)
Definition turns (x : double) : nat :=
  match x with
  | Fin r => Z.to_nat (up (Rabs r / (2 * PI)))
  | NaN => O
  end.

(** The tests and the bodies of the two normalisation loops. *)
Definition above_pi (x : double) : bool := x >? Dbl.M_PI.
Definition below_minus_pi (x : double) : bool := x <? Fin 0 - Dbl.M_PI.
Definition minus_two_pi (x : double) : double := x - two_pi.
Definition plus_two_pi (x : double) : double := x + two_pi.

(** [while (a > M_PI) a -= 2.*M_PI;] *)
Definition wrap_down (a : double) : double :=
  iterate_while above_pi minus_two_pi (turns a) a.

(** [while (a < -M_PI) a += 2.*M_PI;] *)
Definition wrap_up (a : double) : double :=
  iterate_while below_minus_pi plus_two_pi (turns a) a.

(** The two loops one after the other, as everywhere in the source. *)
Definition normalize_angle (a : double) : double := wrap_up (wrap_down a).

(** The tests and the bodies of the same two loops on binary64 numbers,
    with the rounding of every operation. *)
Module Binary64.

Import PrimFloat.
Local Open Scope float_scope.

(** [M_PI] of <cmath>: the binary64 number nearest to pi. *)
Definition M_PI : float := 0x1.921fb54442d18p+1.

Definition above_pi (x : float) : bool := M_PI <? x.
Definition below_minus_pi (x : float) : bool := x <? - M_PI.
Definition minus_two_pi (x : float) : float := x - 2 * M_PI.
Definition plus_two_pi (x : float) : float := x + 2 * M_PI.

(** 2^1000, a finite binary64 number. *)
Definition large : float := 0x1p+1000.

End Binary64.

(** The angle normalisation applied to [v(k)]. *)
Definition normalize_at (k : nat) (v : VectorXd) : VectorXd :=
  set_coeff k (normalize_angle (coeff v k)) v.

(** [v.segment(off, |src|) = src]. *)
Definition set_segment (off : nat) (src v : VectorXd) : VectorXd :=
  mapi (fun i a =>
          if (off <=? i)%nat && (i <? off + length src)%nat
          then coeff src (i - off) else a) v.

(** [M.block(r0, c0, rows(B), cols(B)) = B]. *)
Definition set_block (r0 c0 : nat) (B M : MatrixXd) : MatrixXd :=
  mapi (fun i r =>
          if (r0 <=? i)%nat && (i <? r0 + length B)%nat
          then set_segment c0 (nth (i - r0) B []) r else r) M.

(** [M.col(i) = c] on a matrix kept by columns. *)
Fixpoint set_col (i : nat) (c : VectorXd) (M : Columns) : Columns :=
  match M, i with
  | [], _ => []
  | _ :: t, O => c :: t
  | h :: t, S j => h :: set_col j c t
  end.

(** [for (int i = 0; i < n; i++) acc = f(acc, i);] *)
Definition for_loop {A} (n : nat) (f : A -> nat -> A) (acc : A) : A :=
  fold_left f (seq 0 n) acc.

(** ** [UKF::UKF()]

    The constructor sizes [x_], [P_], [weights_] and [Xsig_pred_] without
    writing to them and leaves [time_us_] unset; [junk] and [t0] are what
    the fresh object holds there. *)
Definition UKF_new (junk : nat -> double) (t0 : Z) : UKF :=
  let x := map junk (seq 0 5) in
  let P := map (fun i => map (fun j => junk (5 + 5 * i + j)%nat) (seq 0 5))
               (seq 0 5) in
  let n_x := length x in
  let n_aug := (n_x + 2)%nat in
  let n_sig := (2 * n_aug + 1)%nat in
  let lambda := Dbl.of_int (3 - Z.of_nat n_aug) in
  let weights := map (fun i => junk (30 + i)%nat) (seq 0 n_sig) in
  let Xsig_pred :=
    map (fun i => map (fun j => junk (45 + n_x * i + j)%nat) (seq 0 n_x))
        (seq 0 n_sig) in
  {| use_laser_ := true;
     use_radar_ := true;
     x_ := x;
     P_ := P;
     std_a_ := Fin (28 / 10);
     std_yawdd_ := Fin (11 / 10);
     std_laspx_ := Fin (15 / 100);
     std_laspy_ := Fin (15 / 100);
     std_radr_ := Fin (3 / 10);
     std_radphi_ := Fin (3 / 100);
     std_radrd_ := Fin (3 / 10);
     is_initialized_ := false;
     n_x_ := n_x;
     n_aug_ := n_aug;
     n_sig_ := n_sig;
     lambda_ := lambda;
     weights_ := weights;
     Xsig_pred_ := Xsig_pred;
     time_us_ := t0;
     nis_laser_ := [];
     nis_radar_ := [] |}.

(** ** [UKF::Prediction] *)

(** Lines 158-166: the augmented mean and covariance. *)
Definition augmented_mean (s : UKF) : VectorXd :=
  let x_aug := fill (n_aug_ s) (Fin 0) in
  let x_aug := set_segment 0 (firstn (n_x_ s) (x_ s)) x_aug in
  set_segment (n_aug_ s - 2) [Fin 0; Fin 0] x_aug.

Definition augmented_covariance (s : UKF) : MatrixXd :=
  let P_aug := mfill (n_aug_ s) (n_aug_ s) (Fin 0) in
  let P_aug := set_block 0 0 (map (firstn 5) (firstn 5 (P_ s))) P_aug in
  set_block (n_aug_ s - 2) (n_aug_ s - 2)
            [[std_a_ s * std_a_ s; Fin 0];
             [Fin 0; std_yawdd_ s * std_yawdd_ s]] P_aug.

(** Lines 168-177: the augmented sigma points.  The local matrix
    [Xsig_aug] is declared without initial values ([NaN] here); the loop
    writes column 0 and, for each [i < n_aug_], columns [i + 1] and
    [i + 1 + n_aug_]. *)
Definition augmented_sigma_points (s : UKF) : Columns :=
  let x_aug := augmented_mean s in
  let L := llt_matrixL (augmented_covariance s) in
  let c := Dbl.sqrt (lambda_ s + Dbl.of_int (Z.of_nat (n_aug_ s))) in
  let Xsig_aug := repeat (fill (n_aug_ s) NaN) (n_sig_ s) in
  let Xsig_aug := set_col 0 x_aug Xsig_aug in
  for_loop (n_aug_ s)
    (fun X i =>
       let X := set_col (i + 1) (vadd x_aug (vscale c (mcol L i))) X in
       set_col (i + 1 + n_aug_ s) (vsub x_aug (vscale c (mcol L i))) X)
    Xsig_aug.

(** Lines 182-217: one augmented sigma point through the CTRV model. *)
Definition ctrv (c : VectorXd) (delta_t : double) : VectorXd :=
  let p_x := coeff c 0 in
  let p_y := coeff c 1 in
  let v := coeff c 2 in
  let yaw := coeff c 3 in
  let yawd := coeff c 4 in
  let nu_a := coeff c 5 in
  let nu_yawdd := coeff c 6 in
  let '(px_p, py_p) :=
    if Dbl.fabs yawd >? Fin (1 / 1000)
    then (p_x + v / yawd * (Dbl.sin (yaw + yawd * delta_t) - Dbl.sin yaw),
          p_y + v / yawd * (Dbl.cos yaw - Dbl.cos (yaw + yawd * delta_t)))
    else (p_x + v * delta_t * Dbl.cos yaw,
          p_y + v * delta_t * Dbl.sin yaw) in
  let v_p := v in
  let yaw_p := yaw + yawd * delta_t in
  let yawd_p := yawd in
  let px_p := px_p + Fin (1 / 2) * nu_a * delta_t * delta_t * Dbl.cos yaw in
  let py_p := py_p + Fin (1 / 2) * nu_a * delta_t * delta_t * Dbl.sin yaw in
  let v_p := v_p + nu_a * delta_t in
  let yaw_p := yaw_p + Fin (1 / 2) * nu_yawdd * delta_t * delta_t in
  let yawd_p := yawd_p + nu_yawdd * delta_t in
  [px_p; py_p; v_p; yaw_p; yawd_p].

(** Lines 220-226: the weights. *)
Definition set_weights (s : UKF) : VectorXd :=
  let n_aug := Dbl.of_int (Z.of_nat (n_aug_ s)) in
  let weight_0 := lambda_ s / (lambda_ s + n_aug) in
  let weights := set_coeff 0 weight_0 (weights_ s) in
  fold_left
    (fun w i => set_coeff i (Fin (1 / 2) / (n_aug + lambda_ s)) w)
    (seq 1 (2 * n_aug_ s + 1 - 1)) weights.

(** Lines 228-232: the weighted mean of the predicted sigma points. *)
Definition weighted_mean (n : nat) (w : VectorXd) (X : Columns)
  (x0 : VectorXd) : VectorXd :=
  for_loop n (fun x i => vadd x (vscale (coeff w i) (col X i))) x0.

(** Lines 234-244: the predicted covariance. *)
Definition predicted_covariance (n : nat) (w : VectorXd) (X : Columns)
  (x : VectorXd) (P0 : MatrixXd) : MatrixXd :=
  for_loop n
    (fun P i =>
       let x_diff := vsub (col X i) x in
       let x_diff := normalize_at 3 x_diff in
       madd P (outer (vscale (coeff w i) x_diff) x_diff))
    P0.

Definition Prediction (s : UKF) (delta_t : double) : UKF :=
  let Xsig_aug := augmented_sigma_points s in
  let Xsig_pred :=
    for_loop (n_sig_ s)
      (fun X i => set_col i (ctrv (col Xsig_aug i) delta_t) X)
      (Xsig_pred_ s) in
  let weights := set_weights s in
  let x := weighted_mean (n_sig_ s) weights Xsig_pred
                         (map (fun _ => Fin 0) (x_ s)) in
  let P := predicted_covariance (n_sig_ s) weights Xsig_pred x
                                (map (map (fun _ => Fin 0)) (P_ s)) in
  set_P_ P (set_x_ x (set_weights_ weights (set_Xsig_pred_ Xsig_pred s))).

(** ** The unscented update, lines 247-418

    The pieces the two updates share are functions of the dimension
    [n_z], of the measurement sigma points [Zsig] and of the index of the
    angle to normalise, if any. *)

Definition normalize_opt (k : option nat) (v : VectorXd) : VectorXd :=
  match k with
  | Some i => normalize_at i v
  | None => v
  end.

(** [z_pred += weights_(i) * Zsig.col(i)] over the sigma points. *)
Definition predicted_measurement (s : UKF) (n_z : nat) (Zsig : Columns)
  : VectorXd :=
  for_loop (n_sig_ s)
    (fun z i => vadd z (vscale (coeff (weights_ s) i) (col Zsig i)))
    (fill n_z (Fin 0)).

(** The innovation covariance before the noise is added. *)
Definition innovation_sum (s : UKF) (n_z : nat) (angle : option nat)
  (Zsig : Columns) (z_pred : VectorXd) : MatrixXd :=
  for_loop (n_sig_ s)
    (fun S i =>
       let z_diff := vsub (col Zsig i) z_pred in
       let z_diff := normalize_opt angle z_diff in
       madd S (outer (vscale (coeff (weights_ s) i) z_diff) z_diff))
    (mfill n_z n_z (Fin 0)).

(** The cross correlation [Tc] over [n] sigma points. *)
Definition cross_correlation (s : UKF) (n n_z : nat) (angle : option nat)
  (Zsig : Columns) (z_pred : VectorXd) : MatrixXd :=
  for_loop n
    (fun Tc i =>
       let z_diff := vsub (col Zsig i) z_pred in
       let z_diff := normalize_opt angle z_diff in
       let x_diff := vsub (col (Xsig_pred_ s) i) (x_ s) in
       let x_diff := normalize_at 3 x_diff in
       madd Tc (outer (vscale (coeff (weights_ s) i) x_diff) z_diff))
    (mfill (n_x_ s) n_z (Fin 0)).

(** [z_diff.transpose() * S.inverse() * z_diff]. *)
Definition nis (z_diff : VectorXd) (S : MatrixXd) : double :=
  dot (vmmul z_diff (inverse S)) z_diff.

(** *** [UKF::UpdateLidar] *)

Definition lidar_Zsig (s : UKF) : Columns :=
  map (fun i => [coeff (col (Xsig_pred_ s) i) 0;
                 coeff (col (Xsig_pred_ s) i) 1])
      (seq 0 (n_sig_ s)).

Definition lidar_z_pred (s : UKF) : VectorXd :=
  predicted_measurement s 2 (lidar_Zsig s).

Definition lidar_S (s : UKF) : MatrixXd :=
  let S := innovation_sum s 2 None (lidar_Zsig s) (lidar_z_pred s) in
  let R := [[std_laspx_ s * std_laspx_ s; Fin 0];
            [Fin 0; std_laspy_ s * std_laspy_ s]] in
  madd S R.

Definition lidar_z (meas_package : MeasurementPackage) : VectorXd :=
  [coeff (raw_measurements_ meas_package) 0;
   coeff (raw_measurements_ meas_package) 1].

Definition lidar_residual (s : UKF) (meas_package : MeasurementPackage)
  : VectorXd :=
  vsub (lidar_z meas_package) (lidar_z_pred s).

Definition UpdateLidar (s : UKF) (meas_package : MeasurementPackage) : UKF :=
  let n_z := 2%nat in
  let Zsig := lidar_Zsig s in
  let z_pred := lidar_z_pred s in
  let S := lidar_S s in
  let Tc := cross_correlation s (2 * n_aug_ s + 1) n_z None Zsig z_pred in
  let K := mmul Tc (inverse S) in
  let z_diff := lidar_residual s meas_package in
  let s := set_nis_laser_ (nis_laser_ s ++ [nis z_diff S]) s in
  let s := set_x_ (vadd (x_ s) (mvmul K z_diff)) s in
  set_P_ (msub (P_ s) (mmul (mmul K S) (transpose K))) s.

(** *** [UKF::UpdateRadar] *)

(** Lines 341-352: one predicted sigma point in measurement space. *)
Definition radar_model (c : VectorXd) : VectorXd :=
  let p_x := coeff c 0 in
  let p_y := coeff c 1 in
  let v := coeff c 2 in
  let yaw := coeff c 3 in
  let v_x := Dbl.cos yaw * v in
  let v_y := Dbl.sin yaw * v in
  [Dbl.sqrt (p_x * p_x + p_y * p_y);
   Dbl.atan2 p_y p_x;
   (p_x * v_x + p_y * v_y) / Dbl.sqrt (p_x * p_x + p_y * p_y)].

Definition radar_Zsig (s : UKF) : Columns :=
  map (fun i => radar_model (col (Xsig_pred_ s) i)) (seq 0 (n_sig_ s)).

Definition radar_z_pred (s : UKF) : VectorXd :=
  predicted_measurement s 3 (radar_Zsig s).

Definition radar_S (s : UKF) : MatrixXd :=
  let S := innovation_sum s 3 (Some 1%nat) (radar_Zsig s) (radar_z_pred s) in
  let R := [[std_radr_ s * std_radr_ s; Fin 0; Fin 0];
            [Fin 0; std_radphi_ s * std_radphi_ s; Fin 0];
            [Fin 0; Fin 0; std_radrd_ s * std_radrd_ s]] in
  madd S R.

Definition radar_z (meas_package : MeasurementPackage) : VectorXd :=
  [coeff (raw_measurements_ meas_package) 0;
   coeff (raw_measurements_ meas_package) 1;
   coeff (raw_measurements_ meas_package) 2].

Definition radar_residual (s : UKF) (meas_package : MeasurementPackage)
  : VectorXd :=
  normalize_at 1 (vsub (radar_z meas_package) (radar_z_pred s)).

Definition UpdateRadar (s : UKF) (meas_package : MeasurementPackage) : UKF :=
  let n_z := 3%nat in
  let Zsig := radar_Zsig s in
  let z_pred := radar_z_pred s in
  let S := radar_S s in
  let Tc := cross_correlation s (n_sig_ s) n_z (Some 1%nat) Zsig z_pred in
  let K := mmul Tc (inverse S) in
  let z_diff := radar_residual s meas_package in
  let s := set_nis_radar_ (nis_radar_ s ++ [nis z_diff S]) s in
  let s := set_x_ (vadd (x_ s) (mvmul K z_diff)) s in
  set_P_ (msub (P_ s) (mmul (mmul K S) (transpose K))) s.

(** ** [UKF::ProcessMeasurement] *)

(** Lines 89-123: the body of [if (!is_initialized_)]. *)
Definition initialize (s : UKF) (meas_package : MeasurementPackage) : UKF :=
  let s :=
    match sensor_type_ meas_package with
    | RADAR =>
        let rho := coeff (raw_measurements_ meas_package) 0 in
        let phi := coeff (raw_measurements_ meas_package) 1 in
        let rhodot := coeff (raw_measurements_ meas_package) 2 in
        let vx := rhodot * Dbl.cos phi in
        let vy := rhodot * Dbl.sin phi in
        let s := set_x_ [rho * Dbl.cos phi; rho * Dbl.sin phi;
                         Dbl.sqrt (vx * vx + vy * vy); Fin 0; Fin 0] s in
        set_P_ (diag [std_radr_ s * std_radr_ s; std_radr_ s * std_radr_ s;
                      Fin 1; std_radphi_ s * std_radphi_ s;
                      std_radphi_ s * std_radphi_ s]) s
    | LASER =>
        let lidar_px := coeff (raw_measurements_ meas_package) 0 in
        let lidar_py := coeff (raw_measurements_ meas_package) 1 in
        let s := set_x_ [lidar_px; lidar_py; Fin 0; Fin 0; Fin 0] s in
        set_P_ (diag [std_laspx_ s * std_laspx_ s; std_laspy_ s * std_laspy_ s;
                      Fin 1; Fin 1; Fin 1]) s
    | UNKNOWN => s
    end in
  let s := set_time_us_ (timestamp_ meas_package) s in
  set_is_initialized_ true s.

(** Lines 125-140: what follows the [if]. *)
Definition predict_and_update (s : UKF) (meas_package : MeasurementPackage)
  : UKF :=
  let dt := Dbl.of_int (timestamp_ meas_package - time_us_ s)
            / Fin 1000000 in
  let s := set_time_us_ (timestamp_ meas_package) s in
  let s := Prediction s dt in
  match sensor_type_ meas_package with
  | RADAR => UpdateRadar s meas_package
  | LASER => UpdateLidar s meas_package
  | UNKNOWN => s
  end.

Definition ProcessMeasurement (s : UKF) (meas_package : MeasurementPackage)
  : UKF :=
  let s := if negb (is_initialized_ s) then initialize s meas_package else s in
  predict_and_update s meas_package.

(** A caller feeding measurements one after the other. *)
Definition process_all (s : UKF) (ms : list MeasurementPackage) : UKF :=
  fold_left ProcessMeasurement ms s.

(** ** [UKF::printNIS]

    The rows written after the header, one per index below
    [nis_radar_.size()].  Reading a [std::vector] past its end is
    undefined: the result is [None] as soon as one read is out of
    bounds. *)
Fixpoint printNIS_rows (radar laser : list double) (idx : list nat)
  : option (list (nat * double * double)) :=
  match idx with
  | [] => Some []
  | i :: is' =>
      match nth_error radar i, nth_error laser i with
      | Some r, Some l =>
          match printNIS_rows radar laser is' with
          | Some rows => Some ((i, r, l) :: rows)
          | None => None
          end
      | _, _ => None
      end
  end.

Definition printNIS (s : UKF) : option (list (nat * double * double)) :=
  printNIS_rows (nis_radar_ s) (nis_laser_ s)
                (seq 0 (length (nis_radar_ s))).

(** ** What a caller observes

    No function of the source throws, returns a status or sets an error
    flag: a call returns, with the object mutated.  [Signals] is the
    other outcome the specification speaks of, with the error kinds it
    names; no definition above produces it. *)
Inductive ErrorKind : Type :=
| InitializationError
| NonPositiveDefiniteCovariance
| SingularInnovationCovariance
| DegenerateRadarGeometry.

Inductive Outcome : Type :=
| Returns (s : UKF)
| Signals (e : ErrorKind).

Definition call (f : UKF -> MeasurementPackage -> UKF) (s : UKF)
  (meas_package : MeasurementPackage) : Outcome :=
  Returns (f s meas_package).

(** The number of packages of one sensor type in a sequence. *)
Definition is_type (t : SensorType) (m : MeasurementPackage) : bool :=
  match t, sensor_type_ m with
  | LASER, LASER => true
  | RADAR, RADAR => true
  | UNKNOWN, UNKNOWN => true
  | _, _ => false
  end.

Definition count_type (t : SensorType) (ms : list MeasurementPackage) : nat :=
  length (filter (is_type t) ms).

(** A fresh estimator and three first measurements used as examples. *)
Definition fresh : UKF := UKF_new (fun _ => Fin 0) 0.

Definition first_laser : MeasurementPackage :=
  mkMeas LASER 1000000 [Fin 1; Fin 2].

Definition first_radar : MeasurementPackage :=
  mkMeas RADAR 1000000 [Fin 5; Fin 0; Fin 0].

Definition first_unknown : MeasurementPackage :=
  mkMeas UNKNOWN 1000000 [Fin 1; Fin 2].

(** The row [printNIS] writes for index [i]. *)
Definition row (radar laser : list double) (i : nat) : nat * double * double :=
  (i, nth i radar NaN, nth i laser NaN).

(** An estimator with two radar and three lidar NIS entries. *)
Definition two_rows : UKF :=
  set_nis_laser_ [Fin 1; Fin 2; Fin 3] (set_nis_radar_ [Fin 4; Fin 5] fresh).

(** The sum of the entries of a vector. *)
Definition vsum (v : VectorXd) : double := fold_left Dbl.add v (Fin 0).

(** The configuration the constructor fixes and nothing changes
    afterwards: the dimensions, the spreading parameter and the sizes of
    the weight vector and of the predicted sigma-point matrix. *)
Record configured (s : UKF) : Prop := {
  cfg_n_x : n_x_ s = 5%nat;
  cfg_n_aug : n_aug_ s = 7%nat;
  cfg_n_sig : n_sig_ s = 15%nat;
  cfg_lambda : lambda_ s = Fin (-4);
  cfg_weights : length (weights_ s) = 15%nat;
  cfg_Xsig_pred : length (Xsig_pred_ s) = 15%nat
}.

(** A NIS value is non-negative when it is a finite number that is at
    least 0. *)
Definition nonnegative (x : double) : Prop :=
  match x with
  | Fin r => (0 <= r)%R
  | NaN => False
  end.

(** Real vectors and matrices, to speak of finite [VectorXd] and
    [MatrixXd] values and of positive definiteness. *)
Fixpoint Rdot (a b : list R) : R :=
  match a, b with
  | x :: a', y :: b' => (x * y + Rdot a' b')%R
  | _, _ => 0%R
  end.

(** y^T S y *)
Definition quadratic_form (S : list (list R)) (y : list R) : R :=
  Rdot y (map (fun r => Rdot r y) S).

(** y^T S y > 0 for every non-zero y of the size of S. *)
Definition positive_definite (S : list (list R)) : Prop :=
  forall y : list R,
    length y = length S ->
    (exists a, In a y /\ a <> 0%R) ->
    (0 < quadratic_form S y)%R.

(** A first RADAR measurement at range 0. *)
Definition radar_at_origin : MeasurementPackage :=
  mkMeas RADAR 1000000 [Fin 0; Fin 0; Fin 0].

(** A matrix with [r] rows of [c] entries. *)
Definition shape (r c : nat) (M : MatrixXd) : Prop :=
  length M = r /\ Forall (fun row => length row = c) M.

(** A vector whose entries are all [NaN]. *)
Definition all_NaN (v : VectorXd) : Prop := Forall (fun a => a = NaN) v.

(** A LASER measurement at (px, py). *)
Definition laser_at (px py : R) (t : Z) : MeasurementPackage :=
  mkMeas LASER t [Fin px; Fin py].

(** A RADAR measurement straight ahead at range [rho], with no range
    rate. *)
Definition radar_at (rho : R) (t : Z) : MeasurementPackage :=
  mkMeas RADAR t [Fin rho; Fin 0; Fin 0].

(** The spreading factor sqrt(lambda_ + n_aug_) of the sigma points. *)
Definition spread : R := sqrt (-4 + 7).

(** The range and the bearing of a sigma point that the spread moves
    sideways by 0.3 [spread] from the point at range [rho] straight
    ahead. *)
Definition side_range (rho : R) : R := sqrt (rho * rho + 27 / 100).
Definition side_bearing (rho : R) : R := atan (spread * (3 / 10) / rho).

(** ** Auxiliary definitions for the further properties *)

(** [use_laser_ = b] and [use_radar_ = b]: the estimator with one flag
    set to [b] and everything else as it is. *)
Definition set_use_laser_ (b : bool) (s : UKF) : UKF :=
  mkUKF b (use_radar_ s) (x_ s) (P_ s) (std_a_ s) (std_yawdd_ s)
        (std_laspx_ s) (std_laspy_ s) (std_radr_ s) (std_radphi_ s)
        (std_radrd_ s) (is_initialized_ s) (n_x_ s) (n_aug_ s) (n_sig_ s)
        (lambda_ s) (weights_ s) (Xsig_pred_ s) (time_us_ s) (nis_laser_ s)
        (nis_radar_ s).

Definition set_use_radar_ (b : bool) (s : UKF) : UKF :=
  mkUKF (use_laser_ s) b (x_ s) (P_ s) (std_a_ s) (std_yawdd_ s)
        (std_laspx_ s) (std_laspy_ s) (std_radr_ s) (std_radphi_ s)
        (std_radrd_ s) (is_initialized_ s) (n_x_ s) (n_aug_ s) (n_sig_ s)
        (lambda_ s) (weights_ s) (Xsig_pred_ s) (time_us_ s) (nis_laser_ s)
        (nis_radar_ s).

(** The sizes of the belief and of the predicted sigma points: [x_] has
    5 entries, [P_] is 5 x 5 and each of the columns of [Xsig_pred_] has
    5 entries. *)
Record dimensioned (s : UKF) : Prop := {
  dim_x : length (x_ s) = 5%nat;
  dim_P : shape 5 5 (P_ s);
  dim_Xsig_pred :
    forall k, (k < 15)%nat -> length (col (Xsig_pred_ s) k) = 5%nat
}.

(** * Properties *)

(** ** The NIS histories *)

Section Histories.

Variable s : UKF.
Variable m : MeasurementPackage.

Lemma Prediction_nis_laser dt : nis_laser_ (Prediction s dt) = nis_laser_ s.
Proof. reflexivity. Qed.

Lemma Prediction_nis_radar dt : nis_radar_ (Prediction s dt) = nis_radar_ s.
Proof. reflexivity. Qed.

Lemma UpdateLidar_nis_laser :
  nis_laser_ (UpdateLidar s m)
  = nis_laser_ s ++ [nis (lidar_residual s m) (lidar_S s)].
Proof. reflexivity. Qed.

Lemma UpdateLidar_nis_radar : nis_radar_ (UpdateLidar s m) = nis_radar_ s.
Proof. reflexivity. Qed.

Lemma UpdateRadar_nis_radar :
  nis_radar_ (UpdateRadar s m)
  = nis_radar_ s ++ [nis (radar_residual s m) (radar_S s)].
Proof. reflexivity. Qed.

Lemma UpdateRadar_nis_laser : nis_laser_ (UpdateRadar s m) = nis_laser_ s.
Proof. reflexivity. Qed.

Lemma initialize_nis :
  nis_laser_ (initialize s m) = nis_laser_ s
  /\ nis_radar_ (initialize s m) = nis_radar_ s.
Proof. unfold initialize. destruct (sensor_type_ m); split; reflexivity. Qed.

Lemma predict_and_update_nis_laser :
  exists a,
    nis_laser_ (predict_and_update s m)
    = nis_laser_ s ++ (if is_type LASER m then [a] else []).
Proof.
  unfold predict_and_update, is_type.
  destruct (sensor_type_ m).
  - eexists. reflexivity.
  - exists NaN. rewrite app_nil_r. reflexivity.
  - exists NaN. rewrite app_nil_r. reflexivity.
Qed.

Lemma predict_and_update_nis_radar :
  exists a,
    nis_radar_ (predict_and_update s m)
    = nis_radar_ s ++ (if is_type RADAR m then [a] else []).
Proof.
  unfold predict_and_update, is_type.
  destruct (sensor_type_ m).
  - exists NaN. rewrite app_nil_r. reflexivity.
  - eexists. reflexivity.
  - exists NaN. rewrite app_nil_r. reflexivity.
Qed.

End Histories.

Lemma ProcessMeasurement_nis_laser s m :
  exists a,
    nis_laser_ (ProcessMeasurement s m)
    = nis_laser_ s ++ (if is_type LASER m then [a] else []).
Proof.
  unfold ProcessMeasurement.
  destruct (negb (is_initialized_ s)).
  - destruct (predict_and_update_nis_laser (initialize s m) m) as [a Ha].
    exists a. rewrite Ha. now rewrite (proj1 (initialize_nis s m)).
  - apply predict_and_update_nis_laser.
Qed.

Lemma ProcessMeasurement_nis_radar s m :
  exists a,
    nis_radar_ (ProcessMeasurement s m)
    = nis_radar_ s ++ (if is_type RADAR m then [a] else []).
Proof.
  unfold ProcessMeasurement.
  destruct (negb (is_initialized_ s)).
  - destruct (predict_and_update_nis_radar (initialize s m) m) as [a Ha].
    exists a. rewrite Ha. now rewrite (proj2 (initialize_nis s m)).
  - apply predict_and_update_nis_radar.
Qed.

Lemma process_all_nis_laser ms : forall s,
  exists l,
    nis_laser_ (process_all s ms) = nis_laser_ s ++ l
    /\ length l = count_type LASER ms.
Proof.
  unfold process_all, count_type.
  induction ms as [|m ms IH]; intros s; cbn [fold_left filter].
  - exists []. now rewrite app_nil_r.
  - destruct (IH (ProcessMeasurement s m)) as [l [Hl Hn]].
    destruct (ProcessMeasurement_nis_laser s m) as [a Ha].
    rewrite Hl, Ha, <- app_assoc.
    eexists. split; [reflexivity|].
    rewrite length_app, Hn.
    destruct (is_type LASER m); reflexivity.
Qed.

Lemma process_all_nis_radar ms : forall s,
  exists l,
    nis_radar_ (process_all s ms) = nis_radar_ s ++ l
    /\ length l = count_type RADAR ms.
Proof.
  unfold process_all, count_type.
  induction ms as [|m ms IH]; intros s; cbn [fold_left filter].
  - exists []. now rewrite app_nil_r.
  - destruct (IH (ProcessMeasurement s m)) as [l [Hl Hn]].
    destruct (ProcessMeasurement_nis_radar s m) as [a Ha].
    rewrite Hl, Ha, <- app_assoc.
    eexists. split; [reflexivity|].
    rewrite length_app, Hn.
    destruct (is_type RADAR m); reflexivity.
Qed.


(** ** [printNIS] *)

Section PrintNIS.

Variables radar laser : list double.

Lemma printNIS_rows_in_bounds idx :
  (forall i, In i idx -> i < length radar /\ i < length laser)%nat ->
  printNIS_rows radar laser idx = Some (map (row radar laser) idx).
Proof.
  induction idx as [|i idx IH]; intros Hb; simpl; [reflexivity|].
  destruct (Hb i (or_introl eq_refl)) as [Hr Hl].
  destruct (nth_error radar i) as [r|] eqn:Er;
    [|apply nth_error_None in Er; lia].
  destruct (nth_error laser i) as [l|] eqn:El;
    [|apply nth_error_None in El; lia].
  rewrite IH by (intros j Hj; apply Hb; now right).
  unfold row.
  now rewrite (nth_error_nth _ _ NaN Er), (nth_error_nth _ _ NaN El).
Qed.

Lemma printNIS_rows_reads idx :
  printNIS_rows radar laser idx <> None ->
  forall i, In i idx -> (i < length radar /\ i < length laser)%nat.
Proof.
  induction idx as [|i idx IH]; simpl; intros Hs j Hj; [contradiction|].
  destruct (nth_error radar i) as [r|] eqn:Er; [|congruence].
  destruct (nth_error laser i) as [l|] eqn:El; [|congruence].
  destruct Hj as [<-|Hj].
  - split; apply nth_error_Some; congruence.
  - apply IH; [|exact Hj].
    destruct (printNIS_rows radar laser idx); congruence.
Qed.

End PrintNIS.

(** C10.  [printNIS] reads the row (i, radar NIS at i, lidar NIS at i) for
    every index i below the length of the radar history.  When the lidar
    history is at least as long as the radar history every read is in
    bounds and these rows are the result; and the reads are all in bounds
    only then. *)
Theorem printNIS_in_bounds_iff (s : UKF) :
  ((length (nis_radar_ s) <= length (nis_laser_ s))%nat ->
   printNIS s
   = Some (map (row (nis_radar_ s) (nis_laser_ s))
               (seq 0 (length (nis_radar_ s)))))
  /\ (printNIS s <> None ->
      (length (nis_radar_ s) <= length (nis_laser_ s))%nat).
Proof.
  unfold printNIS. split.
  - intros Hle. apply printNIS_rows_in_bounds.
    intros i Hi. apply in_seq in Hi. lia.
  - intros Hs.
    destruct (length (nis_radar_ s)) as [|n] eqn:En; [lia|].
    destruct (@printNIS_rows_reads _ _ _ Hs n) as [_ Hl]; [|lia].
    apply in_seq. lia.
Qed.

Lemma printNIS_in_bounds_iff_witness :
  printNIS two_rows = Some [(0%nat, Fin 4, Fin 1); (1%nat, Fin 5, Fin 2)]
  /\ (2 <= 3)%nat.
Proof.
  split.
  - exact (proj1 (printNIS_in_bounds_iff two_rows) (le_S 2 2 (le_n 2))).
  - exact (proj2 (printNIS_in_bounds_iff two_rows)
             (fun H : printNIS two_rows = None =>
                eq_ind (printNIS two_rows)
                       (fun o => match o with Some _ => True | None => False end)
                       I None H)).
Defined.

(** ** The first call of [ProcessMeasurement] *)

Lemma set_time_us_initialize s m :
  set_time_us_ (timestamp_ m) (initialize s m) = initialize s m.
Proof. reflexivity. Qed.

Lemma zero_interval (t : Z) :
  Dbl.of_int (t - t) / Fin 1000000 = Fin 0.
Proof.
  unfold Dbl.of_int, Dbl.div. rewrite Z.sub_diag.
  destruct (Req_dec_T 1000000 0) as [H|_]; [lra|].
  f_equal. lra.
Qed.

Lemma first_call s m :
  is_initialized_ s = false ->
  ProcessMeasurement s m
  = let s1 := Prediction (initialize s m) (Fin 0) in
    match sensor_type_ m with
    | RADAR => UpdateRadar s1 m
    | LASER => UpdateLidar s1 m
    | UNKNOWN => s1
    end.
Proof.
  intros Hi. unfold ProcessMeasurement, predict_and_update.
  rewrite Hi. cbn [negb].
  replace (time_us_ (initialize s m)) with (timestamp_ m) by reflexivity.
  rewrite zero_interval, set_time_us_initialize. reflexivity.
Qed.

(** C1, as the code has it.  On the first call the estimator initialises
    [x_] and [P_] by sensor type, records the timestamp and sets
    [is_initialized_]; it does not return there: it goes on to
    [Prediction] with a zero interval and to the update of the
    measurement's sensor type, on that same first measurement. *)
Theorem first_call_predicts_and_updates (s : UKF) (m : MeasurementPackage) :
  is_initialized_ s = false ->
  time_us_ (initialize s m) = timestamp_ m
  /\ is_initialized_ (initialize s m) = true
  /\ ProcessMeasurement s m
     = match sensor_type_ m with
       | RADAR => UpdateRadar (Prediction (initialize s m) (Fin 0)) m
       | LASER => UpdateLidar (Prediction (initialize s m) (Fin 0)) m
       | UNKNOWN => Prediction (initialize s m) (Fin 0)
       end
  /\ time_us_ (ProcessMeasurement s m) = timestamp_ m
  /\ is_initialized_ (ProcessMeasurement s m) = true.
Proof.
  intros Hi. rewrite (first_call s m Hi). cbv zeta.
  repeat split; destruct (sensor_type_ m); reflexivity.
Qed.

Lemma first_call_predicts_and_updates_witness :
  ProcessMeasurement fresh first_laser
  = UpdateLidar (Prediction (initialize fresh first_laser) (Fin 0)) first_laser.
Proof.
  exact (proj1 (proj2 (proj2
           (first_call_predicts_and_updates fresh first_laser eq_refl)))).
Defined.




(** ** Arithmetic on finite doubles *)

Local Open Scope R_scope.

Lemma div_Fin a b : b <> 0 -> (Fin a / Fin b)%D = Fin (a / b).
Proof. intros Hb. unfold Dbl.div. now destruct (Req_dec_T b 0). Qed.

Lemma div_zero x : (x / Fin 0)%D = NaN.
Proof.
  destruct x as [a|]; [|reflexivity]. unfold Dbl.div.
  now destruct (Req_dec_T 0 0).
Qed.

Lemma sqrt_Fin a : 0 <= a -> Dbl.sqrt (Fin a) = Fin (sqrt a).
Proof. intros Ha. unfold Dbl.sqrt. destruct (Rlt_dec a 0); [lra|reflexivity]. Qed.

Lemma gt_Fin_true a b : b < a -> (Fin a >? Fin b)%D = true.
Proof. intros H. unfold Dbl.gt. destruct (Rlt_dec b a); [reflexivity|lra]. Qed.

Lemma gt_Fin_false a b : a <= b -> (Fin a >? Fin b)%D = false.
Proof. intros H. unfold Dbl.gt. destruct (Rlt_dec b a); [lra|reflexivity]. Qed.

(** Decides the tests on reals left by the evaluation of a definition. *)
Ltac real_tests :=
  repeat match goal with
    | |- context [Req_dec_T ?a ?b] => destruct (Req_dec_T a b); try lra
    | |- context [Rlt_dec ?a ?b] => destruct (Rlt_dec a b); try lra
    | |- context [Rle_dec ?a ?b] => destruct (Rle_dec a b); try lra
    end.

(** Reduces an equation between lists of finite doubles to equations
    between reals. *)
Ltac fin_list :=
  repeat match goal with
    | |- _ :: _ = _ :: _ => apply f_equal2
    | |- [] = [] => reflexivity
    | |- Fin _ = Fin _ => apply f_equal
    | |- NaN = NaN => reflexivity
    end.

(** ** Initialisation *)

(** C8.  A first LASER measurement (1, 2) makes the initialisation set
    the state to [1, 2, 0, 0, 0] and [P_] to
    diag(std_laspx_^2, std_laspy_^2, 1, 1, 1); a first RADAR measurement
    (5, 0, 0) makes it set the state to [5, 0, 0, 0, 0]. *)
Theorem initialize_examples (s : UKF) (t : Z) :
  x_ (initialize s (mkMeas LASER t [Fin 1; Fin 2]))
  = [Fin 1; Fin 2; Fin 0; Fin 0; Fin 0]
  /\ P_ (initialize s (mkMeas LASER t [Fin 1; Fin 2]))
     = [[(std_laspx_ s * std_laspx_ s)%D; Fin 0; Fin 0; Fin 0; Fin 0];
        [Fin 0; (std_laspy_ s * std_laspy_ s)%D; Fin 0; Fin 0; Fin 0];
        [Fin 0; Fin 0; Fin 1; Fin 0; Fin 0];
        [Fin 0; Fin 0; Fin 0; Fin 1; Fin 0];
        [Fin 0; Fin 0; Fin 0; Fin 0; Fin 1]]
  /\ x_ (initialize s (mkMeas RADAR t [Fin 5; Fin 0; Fin 0]))
     = [Fin 5; Fin 0; Fin 0; Fin 0; Fin 0].
Proof.
  split; [reflexivity|]. split; [reflexivity|].
  cbn. rewrite cos_0, sin_0.
  replace (0 * 1 * (0 * 1) + 0 * 0 * (0 * 0)) with 0 by ring.
  rewrite sqrt_0. real_tests.
  fin_list; ring.
Qed.

(** ** Angle normalisation *)

Lemma PI_lt_4 : PI < 4.
Proof.
  destruct (PI_ineq 1) as [_ H].
  cbn in H. unfold tg_alt, PI_tg in H. cbn in H. lra.
Qed.

Lemma PI_gt_3 : 3 < PI.
Proof. pose proof PI2_3_2. lra. Qed.

Lemma two_pi_Fin : two_pi = Fin (2 * PI).
Proof. reflexivity. Qed.

(** The first loop, with [n] iterations allowed, on a number that needs
    no more than [n]: it exits after [k] subtractions. *)
Lemma wrap_down_steps n : forall r,
  r <= PI + 2 * PI * INR n ->
  exists k : nat,
    iterate_while above_pi minus_two_pi n (Fin r) = Fin (r - 2 * PI * INR k)
    /\ r - 2 * PI * INR k <= PI
    /\ (k = O \/ - PI < r - 2 * PI * INR k)
    /\ while_loop above_pi minus_two_pi (Fin r) (Fin (r - 2 * PI * INR k)).
Proof.
  induction n as [|n IH]; intros r Hr.
  - exists O. cbn in *. replace (r - 2 * PI * 0) with r by ring.
    repeat split; [lra|now left|].
    apply while_exit. apply gt_Fin_false. lra.
  - cbn [iterate_while]. destruct (Rlt_dec PI r) as [Hgt|Hle].
    + unfold above_pi at 1. unfold Dbl.M_PI. rewrite (gt_Fin_true Hgt).
      assert (Hr' : r - 2 * PI <= PI + 2 * PI * INR n)
        by (rewrite S_INR in Hr; lra).
      destruct (IH _ Hr') as [k [E [Hk [Hlow W]]]].
      exists (S k). rewrite S_INR.
      replace (r - 2 * PI * (INR k + 1)) with (r - 2 * PI - 2 * PI * INR k)
        by ring.
      split; [exact E|]. split; [exact Hk|]. split.
      * right. destruct Hlow as [->|Hlow]; [cbn; lra|exact Hlow].
      * apply while_iter; [apply gt_Fin_true; exact Hgt|exact W].
    + assert (Hf : above_pi (Fin r) = false) by (apply gt_Fin_false; lra).
      rewrite Hf. exists O. cbn. replace (r - 2 * PI * 0) with r by ring.
      repeat split; [lra|now left|now apply while_exit].
Qed.

(** The second loop, likewise: it exits after [k] additions. *)
Lemma wrap_up_steps n : forall r,
  - PI - 2 * PI * INR n <= r ->
  exists k : nat,
    iterate_while below_minus_pi plus_two_pi n (Fin r)
    = Fin (r + 2 * PI * INR k)
    /\ - PI <= r + 2 * PI * INR k
    /\ (k = O \/ r + 2 * PI * INR k < PI)
    /\ while_loop below_minus_pi plus_two_pi (Fin r)
                  (Fin (r + 2 * PI * INR k)).
Proof.
  assert (Hlt : forall a, (a < - PI -> below_minus_pi (Fin a) = true)
                          /\ (- PI <= a -> below_minus_pi (Fin a) = false)).
  { intros a. unfold below_minus_pi, Dbl.lt. cbn.
    split; intros H; [apply gt_Fin_true|apply gt_Fin_false]; lra. }
  induction n as [|n IH]; intros r Hr.
  - exists O. cbn in *. replace (r + 2 * PI * 0) with r by ring.
    repeat split; [lra|now left|].
    apply while_exit. apply Hlt. lra.
  - cbn [iterate_while]. destruct (Rlt_dec r (- PI)) as [Hgt|Hle].
    + rewrite (proj1 (Hlt r) Hgt).
      assert (Hr' : - PI - 2 * PI * INR n <= r + 2 * PI)
        by (rewrite S_INR in Hr; lra).
      destruct (IH _ Hr') as [k [E [Hk [Hup W]]]].
      exists (S k). rewrite S_INR.
      replace (r + 2 * PI * (INR k + 1)) with (r + 2 * PI + 2 * PI * INR k)
        by ring.
      split; [exact E|]. split; [exact Hk|]. split.
      * right. destruct Hup as [->|Hup]; [cbn; lra|exact Hup].
      * apply while_iter; [now apply Hlt|exact W].
    + assert (Hf : below_minus_pi (Fin r) = false) by (apply Hlt; lra).
      rewrite Hf. exists O. cbn. replace (r + 2 * PI * 0) with r by ring.
      repeat split; [lra|now left|now apply while_exit].
Qed.

(** [turns] allows enough iterations. *)
Lemma turns_enough r : Rabs r < 2 * PI * INR (turns (Fin r)).
Proof.
  pose proof PI_gt_3 as Hpi. cbn [turns].
  destruct (archimed (Rabs r / (2 * PI))) as [Hup _].
  assert (Hq : 0 <= Rabs r / (2 * PI)).
  { apply Rmult_le_pos; [apply Rabs_pos|].
    apply Rlt_le, Rinv_0_lt_compat. lra. }
  assert (Hz : (0 <= up (Rabs r / (2 * PI)))%Z).
  { apply le_IZR. lra. }
  rewrite INR_IZR_INZ, Z2Nat.id by exact Hz.
  apply Rmult_lt_compat_l with (r := 2 * PI) in Hup; [|lra].
  replace (2 * PI * (Rabs r / (2 * PI))) with (Rabs r) in Hup
    by (field; lra).
  exact Hup.
Qed.

Lemma normalize_angle_Fin r :
  exists (k : Z),
    normalize_angle (Fin r) = Fin (r + IZR k * (2 * PI))
    /\ - PI <= r + IZR k * (2 * PI) <= PI
    /\ while_loop above_pi minus_two_pi (Fin r) (wrap_down (Fin r))
    /\ while_loop below_minus_pi plus_two_pi (wrap_down (Fin r))
                  (normalize_angle (Fin r)).
Proof.
  pose proof PI_gt_3 as Hpi.
  pose proof (turns_enough r) as Ht.
  assert (Ha : r <= Rabs r /\ - Rabs r <= r).
  { unfold Rabs. destruct (Rcase_abs r); lra. }
  destruct (@wrap_down_steps (turns (Fin r)) r) as [k1 [E1 [H1 [L1 W1]]]];
    [lra|].
  unfold normalize_angle.
  change (wrap_down (Fin r))
    with (iterate_while above_pi minus_two_pi (turns (Fin r)) (Fin r)).
  rewrite E1. set (r1 := r - 2 * PI * INR k1) in *.
  pose proof (turns_enough r1) as Ht1.
  assert (Ha1 : - Rabs r1 <= r1)
    by (unfold Rabs; destruct (Rcase_abs r1); lra).
  destruct (@wrap_up_steps (turns (Fin r1)) r1) as [k2 [E2 [H2 [L2 W2]]]];
    [lra|].
  change (wrap_up (Fin r1))
    with (iterate_while below_minus_pi plus_two_pi (turns (Fin r1)) (Fin r1)).
  rewrite E2.
  exists (Z.of_nat k2 - Z.of_nat k1)%Z.
  rewrite minus_IZR, <- !INR_IZR_INZ.
  replace (r + (INR k2 - INR k1) * (2 * PI)) with (r1 + 2 * PI * INR k2)
    by (unfold r1; ring).
  split; [reflexivity|]. split; [|split; [exact W1|exact W2]].
  split; [exact H2|].
  destruct L2 as [->|L2]; [cbn; lra|lra].
Qed.

Lemma iterate_while_exit cond body n x :
  cond x = false -> iterate_while cond body n x = x.
Proof. intros H. destruct n; cbn; [reflexivity|now rewrite H]. Qed.

Lemma normalize_angle_fixed r :
  - PI <= r <= PI -> normalize_angle (Fin r) = Fin r.
Proof.
  intros [Hl Hu]. unfold normalize_angle, wrap_down.
  rewrite iterate_while_exit by (apply gt_Fin_false; exact Hu).
  unfold wrap_up. apply iterate_while_exit.
  unfold below_minus_pi, Dbl.lt. cbn. apply gt_Fin_false. lra.
Qed.

Lemma normalize_angle_4 : normalize_angle (Fin 4) = Fin (4 - 2 * PI).
Proof.
  pose proof PI_gt_3 as H3. pose proof PI_lt_4 as H4.
  pose proof (turns_enough 4) as Ht.
  unfold normalize_angle, wrap_down.
  destruct (turns (Fin 4)) as [|n].
  - cbn in Ht. rewrite Rabs_pos_eq in Ht; lra.
  - cbn [iterate_while]. unfold above_pi at 1.
    rewrite (gt_Fin_true H4 : (Fin 4 >? Dbl.M_PI)%D = true).
    change (minus_two_pi (Fin 4)) with (Fin (4 - 2 * PI)).
    rewrite iterate_while_exit by (apply gt_Fin_false; lra).
    unfold wrap_up. apply iterate_while_exit.
    unfold below_minus_pi, Dbl.lt. cbn. apply gt_Fin_false. lra.
Qed.

(** For every double, [NaN] included, the two functions give what the
    loops they stand for exit with. *)
Lemma normalize_angle_is_loop (x : double) :
  while_loop above_pi minus_two_pi x (wrap_down x)
  /\ while_loop below_minus_pi plus_two_pi (wrap_down x) (normalize_angle x).
Proof.
  destruct x as [r|].
  - destruct (normalize_angle_Fin r) as [k [_ [_ H]]]. exact H.
  - split; apply while_exit; reflexivity.
Qed.

(** C6, as the code has it.  In exact arithmetic, for every finite angle
    the two normalisation loops terminate, and the value they produce
    differs from the input by an integer multiple of 2 pi and lies in the
    closed interval [-pi, pi]; an input of 4 yields 4 - 2 pi, which lies
    in (-pi, pi]. *)
Theorem normalize_angle_range :
  (forall r : R,
      exists k : Z,
        normalize_angle (Fin r) = Fin (r + IZR k * (2 * PI))
        /\ - PI <= r + IZR k * (2 * PI) <= PI
        /\ while_loop above_pi minus_two_pi (Fin r) (wrap_down (Fin r))
        /\ while_loop below_minus_pi plus_two_pi (wrap_down (Fin r))
                      (normalize_angle (Fin r)))
  /\ normalize_angle (Fin 4) = Fin (4 - 2 * PI)
  /\ - PI < 4 - 2 * PI <= PI.
Proof.
  split; [exact normalize_angle_Fin|]. split; [exact normalize_angle_4|].
  pose proof PI_gt_3. pose proof PI_lt_4. lra.
Qed.

(** A loop whose test holds and whose body changes nothing never
    exits. *)
Lemma while_loop_stuck (A : Type) (cond : A -> bool) (body : A -> A) x :
  cond x = true -> body x = x -> forall y, ~ while_loop cond body x y.
Proof.
  intros Hc Hb y H.
  induction H as [x Hf|x y _ _ IH]; [congruence|].
  apply IH; rewrite Hb; assumption.
Qed.

(** On binary64 numbers 2^1000 is finite and above [M_PI], and
    subtracting [2.*M_PI] from it gives 2^1000 again. *)
Lemma large_is_absorbing :
  PrimFloat.is_finite Binary64.large = true
  /\ Binary64.above_pi Binary64.large = true
  /\ Binary64.minus_two_pi Binary64.large = Binary64.large.
Proof. repeat split; vm_compute; reflexivity. Qed.

(** On binary64 numbers too, [-M_PI] passes both tests unchanged. *)
Lemma minus_M_PI_is_kept :
  Binary64.above_pi (PrimFloat.opp Binary64.M_PI) = false
  /\ Binary64.below_minus_pi (PrimFloat.opp Binary64.M_PI) = false.
Proof. split; vm_compute; reflexivity. Qed.

(** C6 as stated fails in two places.  At the lower end: the angle -pi
    is left as it is, and -pi is not in (-pi, pi].  And for large finite
    angles once rounding is taken into account: started at 2^1000, the
    loop [while (a > M_PI) a -= 2.*M_PI;] never exits. *)
Lemma normalize_angle_range_fails :
  (normalize_angle (Fin (- PI)) = Fin (- PI)
   /\ ~ (- PI < - PI <= PI))
  /\ (PrimFloat.is_finite Binary64.large = true
      /\ forall y,
          ~ while_loop Binary64.above_pi Binary64.minus_two_pi
                       Binary64.large y).
Proof.
  pose proof PI_gt_3.
  split; [split; [apply normalize_angle_fixed; lra|lra]|].
  destruct large_is_absorbing as [Hf [Hc Hb]].
  split; [exact Hf|]. exact (@while_loop_stuck _ _ _ _ Hc Hb).
Qed.

(** ** Loops that write the columns of a matrix *)

Lemma for_loop_S {A} n (f : A -> nat -> A) a :
  for_loop (S n) f a = f (for_loop n f a) n.
Proof.
  unfold for_loop. rewrite seq_S, fold_left_app. reflexivity.
Qed.

Lemma set_col_length c X : forall i, length (set_col i c X) = length X.
Proof.
  induction X as [|h X IH]; intros [|i]; cbn; try reflexivity.
  now rewrite IH.
Qed.

Lemma col_set_col c X : forall i j,
  (i < length X)%nat ->
  col (set_col i c X) j = if (j =? i)%nat then c else col X j.
Proof.
  unfold col.
  induction X as [|h X IH]; intros [|i] [|j] H; cbn in *; try lia;
    try reflexivity.
  apply IH. lia.
Qed.

Lemma col_set_col_other c X i j :
  j <> i -> col (set_col i c X) j = col X j.
Proof.
  unfold col. revert i j.
  induction X as [|h X IH]; intros [|i] [|j] H; cbn in *; try lia;
    try reflexivity.
  apply IH. lia.
Qed.

(** The loop of lines 180-218 leaves [g i] in column [i]. *)
Lemma for_loop_set_col (g : nat -> VectorXd) X n :
  (n <= length X)%nat ->
  length (for_loop n (fun X i => set_col i (g i) X) X) = length X
  /\ forall i, (i < n)%nat ->
               col (for_loop n (fun X i => set_col i (g i) X) X) i = g i.
Proof.
  induction n as [|n IH]; intros Hn.
  - split; [reflexivity|]. intros i Hi. lia.
  - destruct IH as [Hl Hc]; [lia|]. rewrite for_loop_S.
    split; [now rewrite set_col_length|].
    intros i Hi. rewrite col_set_col by (rewrite Hl; lia).
    destruct (Nat.eqb_spec i n) as [->|Hne]; [reflexivity|].
    apply Hc. lia.
Qed.

(** Column 0 of the augmented sigma points is the augmented mean. *)
Lemma augmented_sigma_points_col0 s :
  (0 < n_sig_ s)%nat ->
  col (augmented_sigma_points s) 0 = augmented_mean s.
Proof.
  intros Hn. unfold augmented_sigma_points.
  set (X0 := set_col 0 (augmented_mean s) _).
  assert (H0 : col X0 0 = augmented_mean s).
  { unfold X0. rewrite col_set_col by (rewrite repeat_length; exact Hn).
    reflexivity. }
  generalize dependent X0. unfold for_loop.
  induction (seq 0 (n_aug_ s)) as [|k l IH]; intros X0 H0; cbn [fold_left];
    [exact H0|].
  apply IH. rewrite !col_set_col_other by lia. exact H0.
Qed.

Lemma Prediction_col s dt i :
  (i < n_sig_ s)%nat -> (n_sig_ s <= length (Xsig_pred_ s))%nat ->
  col (Xsig_pred_ (Prediction s dt)) i
  = ctrv (col (augmented_sigma_points s) i) dt.
Proof.
  intros Hi Hn. cbn [Prediction Xsig_pred_ set_P_ set_x_ set_weights_
                                set_Xsig_pred_].
  exact (proj2 (for_loop_set_col
                  (fun k => ctrv (col (augmented_sigma_points s) k) dt)
                  (Xsig_pred_ s) Hn) i Hi).
Qed.

Lemma Prediction_x_ s dt :
  x_ (Prediction s dt)
  = weighted_mean (n_sig_ s) (weights_ (Prediction s dt))
                  (Xsig_pred_ (Prediction s dt)) (map (fun _ => Fin 0) (x_ s)).
Proof. reflexivity. Qed.

Lemma Prediction_P_ s dt :
  P_ (Prediction s dt)
  = predicted_covariance (n_sig_ s) (weights_ (Prediction s dt))
      (Xsig_pred_ (Prediction s dt)) (x_ (Prediction s dt))
      (map (map (fun _ => Fin 0)) (P_ s)).
Proof. reflexivity. Qed.

(** ** The motion model *)

(** The test that guards the division lets only finite, non-zero
    yaw rates through. *)
Lemma guard_excludes_zero (yawd : double) :
  (Dbl.fabs yawd >? Fin (1 / 1000))%D = true ->
  exists r, yawd = Fin r /\ 1 / 1000 < Rabs r /\ r <> 0.
Proof.
  destruct yawd as [r|]; cbn; [|discriminate].
  destruct (Rlt_dec (1 / 1000) (Rabs r)) as [H|H]; [|discriminate].
  intros _. exists r. repeat split; [exact H|].
  intros ->. rewrite Rabs_R0 in H. lra.
Qed.

(** C7.  Every predicted sigma point is the CTRV image of the augmented
    sigma point of the same column.  A sigma point goes through the
    closed-form integration, which divides by the yaw rate, exactly when
    |yaw rate| > 0.001, and through the straight-line approximation
    otherwise.  The test lets only non-zero yaw rates reach the
    division, so that a finite sigma point and a finite interval always
    give a finite predicted point: no division by zero occurs. *)
Theorem ctrv_division_guarded :
  (forall (s : UKF) (delta_t : double) (i : nat),
      (i < n_sig_ s)%nat -> (n_sig_ s <= length (Xsig_pred_ s))%nat ->
      col (Xsig_pred_ (Prediction s delta_t)) i
      = ctrv (col (augmented_sigma_points s) i) delta_t)
  /\ (forall yawd : double,
      (Dbl.fabs yawd >? Fin (1 / 1000))%D = true ->
      exists r, yawd = Fin r /\ 1 / 1000 < Rabs r /\ r <> 0)
  /\ (forall p_x p_y v yaw yawd nu_a nu_yawdd delta_t : R,
         let c := [Fin p_x; Fin p_y; Fin v; Fin yaw; Fin yawd;
                   Fin nu_a; Fin nu_yawdd] in
         (1 / 1000 < Rabs yawd ->
          yawd <> 0
          /\ ctrv c (Fin delta_t)
             = [Fin (p_x + v / yawd * (sin (yaw + yawd * delta_t) - sin yaw)
                     + 1 / 2 * nu_a * delta_t * delta_t * cos yaw);
                Fin (p_y + v / yawd * (cos yaw - cos (yaw + yawd * delta_t))
                     + 1 / 2 * nu_a * delta_t * delta_t * sin yaw);
                Fin (v + nu_a * delta_t);
                Fin (yaw + yawd * delta_t
                     + 1 / 2 * nu_yawdd * delta_t * delta_t);
                Fin (yawd + nu_yawdd * delta_t)])
         /\ (Rabs yawd <= 1 / 1000 ->
             ctrv c (Fin delta_t)
             = [Fin (p_x + v * delta_t * cos yaw
                     + 1 / 2 * nu_a * delta_t * delta_t * cos yaw);
                Fin (p_y + v * delta_t * sin yaw
                     + 1 / 2 * nu_a * delta_t * delta_t * sin yaw);
                Fin (v + nu_a * delta_t);
                Fin (yaw + yawd * delta_t
                     + 1 / 2 * nu_yawdd * delta_t * delta_t);
                Fin (yawd + nu_yawdd * delta_t)])).
Proof.
  split; [intros s delta_t i; apply Prediction_col|].
  split; [exact guard_excludes_zero|].
  intros p_x p_y v yaw yawd nu_a nu_yawdd delta_t c. split.
  - intros Hg.
    assert (Hz : yawd <> 0).
    { intros ->. rewrite Rabs_R0 in Hg. lra. }
    split; [exact Hz|].
    unfold ctrv, c. cbn [coeff nth]. cbn [Dbl.fabs Dbl.lift1].
    rewrite (gt_Fin_true Hg). rewrite (div_Fin v Hz). reflexivity.
  - intros Hg. unfold ctrv, c. cbn [coeff nth]. cbn [Dbl.fabs Dbl.lift1].
    rewrite (gt_Fin_false Hg). reflexivity.
Qed.

Lemma ctrv_division_guarded_witness :
  col (Xsig_pred_ (Prediction fresh (Fin 1))) 0
  = ctrv (col (augmented_sigma_points fresh) 0) (Fin 1)
  /\ ctrv [Fin 0; Fin 0; Fin 1; Fin 0; Fin 2; Fin 0; Fin 0] (Fin 1)
  = [Fin (0 + 1 / 2 * (sin (0 + 2 * 1) - sin 0) + 1 / 2 * 0 * 1 * 1 * cos 0);
     Fin (0 + 1 / 2 * (cos 0 - cos (0 + 2 * 1)) + 1 / 2 * 0 * 1 * 1 * sin 0);
     Fin (1 + 0 * 1); Fin (0 + 2 * 1 + 1 / 2 * 0 * 1 * 1); Fin (2 + 0 * 1)]
  /\ ctrv [Fin 0; Fin 0; Fin 1; Fin 0; Fin 0; Fin 0; Fin 0] (Fin 1)
     = [Fin (0 + 1 * 1 * cos 0 + 1 / 2 * 0 * 1 * 1 * cos 0);
        Fin (0 + 1 * 1 * sin 0 + 1 / 2 * 0 * 1 * 1 * sin 0);
        Fin (1 + 0 * 1); Fin (0 + 0 * 1 + 1 / 2 * 0 * 1 * 1); Fin (0 + 0 * 1)].
Proof.
  split; [|split].
  - apply (proj1 ctrv_division_guarded fresh (Fin 1) 0%nat); cbn; lia.
  - apply (proj1 (proj2 (proj2 ctrv_division_guarded) 0 0 1 0 2 0 0 1)).
    rewrite Rabs_pos_eq; lra.
  - apply (proj2 (proj2 (proj2 ctrv_division_guarded) 0 0 1 0 0 0 0 1)).
    rewrite Rabs_R0; lra.
Defined.

(** ** How [NaN] travels through vectors *)

Lemma add_NaN_r x : (x + NaN)%D = NaN.
Proof. now destruct x. Qed.

Lemma sub_NaN_r x : (x - NaN)%D = NaN.
Proof. now destruct x. Qed.

Lemma mul_NaN_r x : (x * NaN)%D = NaN.
Proof. now destruct x. Qed.

Lemma map2_length {A B C} (f : A -> B -> C) l : forall m,
  length l = length m -> length (map2 f l m) = length l.
Proof.
  induction l as [|a l IH]; intros [|b m] H; cbn in *;
    try discriminate; [reflexivity|].
  f_equal. apply IH. now injection H.
Qed.

Lemma coeff_map2 (f : double -> double -> double) l : forall m j,
  (j < length l)%nat -> (j < length m)%nat ->
  coeff (map2 f l m) j = f (coeff l j) (coeff m j).
Proof.
  unfold coeff.
  induction l as [|a l IH]; intros [|b m] [|j] Hl Hm; cbn in *;
    try lia; [reflexivity|].
  apply IH; lia.
Qed.

Lemma coeff_map (f : double -> double) l j :
  (j < length l)%nat -> coeff (map f l) j = f (coeff l j).
Proof.
  unfold coeff. intros H.
  rewrite (nth_indep _ NaN (f NaN)) by now rewrite length_map.
  apply map_nth.
Qed.

Lemma nth_map_seq {A} (f : nat -> A) n i d :
  (i < n)%nat -> nth i (map f (seq 0 n)) d = f i.
Proof.
  intros H. rewrite (nth_indep _ d (f 0%nat)) by now rewrite length_map, length_seq.
  rewrite map_nth, seq_nth; [reflexivity|exact H].
Qed.

(** A sum of vectors accumulated by a loop has [NaN] at [j] as soon as
    one summand has. *)
Lemma fold_vadd_NaN (f : nat -> VectorXd) (j : nat) l : forall z,
  (forall k, In k l -> length (f k) = length z) ->
  (j < length z)%nat ->
  coeff z j = NaN \/ (exists i, In i l /\ coeff (f i) j = NaN) ->
  let z' := fold_left (fun z k => vadd z (f k)) l z in
  length z' = length z /\ coeff z' j = NaN.
Proof.
  induction l as [|k l IH]; intros z Hlen Hj Hn; cbn.
  - split; [reflexivity|]. destruct Hn as [Hn|[i [[] _]]]. exact Hn.
  - assert (Hk : length (f k) = length z) by (apply Hlen; now left).
    assert (Hl : length (vadd z (f k)) = length z)
      by (apply map2_length; now rewrite Hk).
    destruct (IH (vadd z (f k))) as [H1 H2].
    + intros k' Hk'. rewrite Hl. apply Hlen. now right.
    + now rewrite Hl.
    + unfold vadd at 1. rewrite coeff_map2 by (rewrite ?Hk; exact Hj).
      destruct Hn as [Hn|[i [[->|Hi] Hn]]].
      * left. now rewrite Hn.
      * left. rewrite Hn. apply add_NaN_r.
      * right. now exists i.
    + split; [now rewrite H1|exact H2].
Qed.

Lemma dot_NaN (b : VectorXd) : forall (a : VectorXd) j,
  (j < length a)%nat -> (j < length b)%nat -> coeff b j = NaN ->
  dot a b = NaN.
Proof.
  unfold coeff.
  induction b as [|y b IH]; intros [|x a] [|j] Ha Hb Hn; cbn in *; try lia.
  - subst y. now rewrite mul_NaN_r.
  - rewrite (IH a j) by (lia || assumption). apply add_NaN_r.
Qed.

(** ** The radar update at the origin *)

Lemma radar_model_at_origin (c : VectorXd) :
  coeff c 0 = Fin 0 -> coeff c 1 = Fin 0 ->
  coeff (radar_model c) 2 = NaN.
Proof.
  intros H0 H1. unfold radar_model. rewrite H0, H1. cbn [coeff nth].
  replace (Fin 0 * Fin 0 + Fin 0 * Fin 0)%D with (Fin 0)
    by (cbn; f_equal; ring).
  rewrite (sqrt_Fin (Rle_refl 0)), sqrt_0. apply div_zero.
Qed.

Lemma radar_Zsig_col s i :
  (i < n_sig_ s)%nat ->
  col (radar_Zsig s) i = radar_model (col (Xsig_pred_ s) i).
Proof.
  intros H. unfold col at 1, radar_Zsig.
  exact (nth_map_seq (fun k => radar_model (col (Xsig_pred_ s) k)) [] H).
Qed.

Lemma radar_z_pred_NaN s i :
  (i < n_sig_ s)%nat ->
  coeff (col (radar_Zsig s) i) 2 = NaN ->
  length (radar_z_pred s) = 3%nat /\ coeff (radar_z_pred s) 2 = NaN.
Proof.
  intros Hi Hn. unfold radar_z_pred, predicted_measurement, for_loop.
  apply (fold_vadd_NaN
           (fun k => vscale (coeff (weights_ s) k) (col (radar_Zsig s) k))).
  - intros k Hk. apply in_seq in Hk. unfold vscale.
    rewrite length_map, radar_Zsig_col by lia. reflexivity.
  - cbn. lia.
  - right. exists i. split; [apply in_seq; lia|].
    unfold vscale. rewrite coeff_map, Hn.
    + apply mul_NaN_r.
    + rewrite radar_Zsig_col by exact Hi. cbn. lia.
Qed.

(** *** Sizes *)

(** Arithmetic on lengths, once the names of the list types are
    unfolded. *)
Ltac sizes := unfold VectorXd, MatrixXd, Columns in *; lia.

Lemma fold_map2_length {A} (g : A -> A -> A) (f : nat -> list A) l :
  forall z,
    (forall k, In k l -> length (f k) = length z) ->
    length (fold_left (fun z k => map2 g z (f k)) l z) = length z.
Proof.
  induction l as [|k l IH]; intros z Hlen; cbn; [reflexivity|].
  assert (Hk : length (map2 g z (f k)) = length z).
  { apply map2_length. symmetry. apply Hlen. now left. }
  rewrite IH; [exact Hk|].
  intros k' Hk'. rewrite Hk. apply Hlen. now right.
Qed.

Lemma set_coeff_length a v : forall i, length (set_coeff i a v) = length v.
Proof.
  induction v as [|h v IH]; intros [|i]; cbn; try reflexivity.
  now rewrite IH.
Qed.

Lemma normalize_opt_length k v : length (normalize_opt k v) = length v.
Proof.
  destruct k; [apply set_coeff_length|reflexivity].
Qed.

Lemma outer_shape a b : shape (length a) (length b) (outer a b).
Proof.
  unfold shape, outer. rewrite length_map. split; [reflexivity|].
  apply Forall_map, Forall_forall. intros x _. apply length_map.
Qed.

Lemma madd_shape r c A B : shape r c A -> shape r c B -> shape r c (madd A B).
Proof.
  intros [HA1 HA2] [HB1 HB2]. unfold shape, madd.
  split; [rewrite map2_length by sizes; exact HA1|].
  clear HA1 HB1. revert B HB2.
  induction HA2 as [|x A Hx HA IH]; intros B HB; [constructor|].
  destruct HB as [|y B Hy HB]; [constructor|].
  cbn. constructor; [|now apply IH].
  unfold vadd. rewrite map2_length by sizes. exact Hx.
Qed.

Lemma mfill_shape r c a : shape r c (mfill r c a).
Proof.
  unfold shape, mfill, fill. rewrite repeat_length. split; [reflexivity|].
  apply Forall_forall. intros x Hx. apply repeat_spec in Hx. subst x.
  apply repeat_length.
Qed.

Lemma fold_madd_shape r c (f : nat -> MatrixXd) l : forall M,
  shape r c M -> (forall k, In k l -> shape r c (f k)) ->
  shape r c (fold_left (fun M k => madd M (f k)) l M).
Proof.
  induction l as [|k l IH]; intros M HM Hf; cbn; [exact HM|].
  apply IH; [|intros k' Hk'; apply Hf; now right].
  apply madd_shape; [exact HM|apply Hf; now left].
Qed.

Lemma lidar_Zsig_col s i :
  (i < n_sig_ s)%nat ->
  col (lidar_Zsig s) i
  = [coeff (col (Xsig_pred_ s) i) 0; coeff (col (Xsig_pred_ s) i) 1].
Proof.
  intros H. unfold col at 1, lidar_Zsig.
  exact (nth_map_seq (fun k => [coeff (col (Xsig_pred_ s) k) 0;
                                coeff (col (Xsig_pred_ s) k) 1]) [] H).
Qed.

Lemma predicted_measurement_length s n_z Zsig :
  (forall k, (k < n_sig_ s)%nat -> length (col Zsig k) = n_z) ->
  length (predicted_measurement s n_z Zsig) = n_z.
Proof.
  intros H. unfold predicted_measurement, for_loop, vadd.
  rewrite (fold_map2_length Dbl.add
             (fun k => vscale (coeff (weights_ s) k) (col Zsig k))).
  - apply repeat_length.
  - intros k Hk. apply in_seq in Hk. unfold vscale, fill.
    rewrite length_map, repeat_length. apply H. lia.
Qed.

Lemma innovation_sum_shape s n_z angle Zsig z_pred :
  (forall k, (k < n_sig_ s)%nat -> length (col Zsig k) = n_z) ->
  length z_pred = n_z ->
  shape n_z n_z (innovation_sum s n_z angle Zsig z_pred).
Proof.
  intros HZ Hz. unfold innovation_sum, for_loop.
  apply (fold_madd_shape
           (fun k =>
              outer (vscale (coeff (weights_ s) k)
                       (normalize_opt angle (vsub (col Zsig k) z_pred)))
                    (normalize_opt angle (vsub (col Zsig k) z_pred)))).
  - apply mfill_shape.
  - intros k Hk. apply in_seq in Hk.
    assert (E : length (normalize_opt angle (vsub (col Zsig k) z_pred)) = n_z).
    { rewrite normalize_opt_length. unfold vsub.
      rewrite map2_length; rewrite HZ by lia; [reflexivity|sizes]. }
    pose proof (outer_shape
                  (vscale (coeff (weights_ s) k)
                     (normalize_opt angle (vsub (col Zsig k) z_pred)))
                  (normalize_opt angle (vsub (col Zsig k) z_pred))) as Ho.
    unfold vscale in Ho at 1. rewrite length_map, E in Ho. exact Ho.
Qed.

Lemma lidar_z_pred_length s : length (lidar_z_pred s) = 2%nat.
Proof.
  apply predicted_measurement_length.
  intros k Hk. now rewrite lidar_Zsig_col.
Qed.

Lemma radar_z_pred_length s : length (radar_z_pred s) = 3%nat.
Proof.
  apply predicted_measurement_length.
  intros k Hk. now rewrite radar_Zsig_col.
Qed.

Lemma lidar_S_shape s : shape 2 2 (lidar_S s).
Proof.
  unfold lidar_S. apply madd_shape.
  - apply innovation_sum_shape; [|apply lidar_z_pred_length].
    intros k Hk. now rewrite lidar_Zsig_col.
  - split; [reflexivity|]. repeat constructor.
Qed.

Lemma radar_S_shape s : shape 3 3 (radar_S s).
Proof.
  unfold radar_S. apply madd_shape.
  - apply innovation_sum_shape; [|apply radar_z_pred_length].
    intros k Hk. now rewrite radar_Zsig_col.
  - split; [reflexivity|]. repeat constructor.
Qed.

Lemma ncols_inverse S : ncols (inverse S) = length S.
Proof.
  unfold ncols, inverse.
  set (row_of := fun i : nat => map _ (seq 0 (length S))).
  destruct (length S) as [|n] eqn:E; [reflexivity|].
  simpl. unfold row_of. now rewrite length_map, length_seq.
Qed.

Lemma vmmul_length v M : length (vmmul v M) = ncols M.
Proof.
  unfold vmmul, transpose. now rewrite !length_map, length_seq.
Qed.

(** *** From the range rate 0/0 to the state *)

Lemma radar_residual_NaN s m :
  coeff (radar_z_pred s) 2 = NaN ->
  length (radar_residual s m) = 3%nat /\ coeff (radar_residual s m) 2 = NaN.
Proof.
  intros Hn. pose proof (radar_z_pred_length s) as Hl.
  unfold radar_residual, radar_z.
  destruct (radar_z_pred s) as [|p0 [|p1 [|p2 [|? ?]]]]; try discriminate Hl.
  cbn in Hn. subst p2. cbn. split; [reflexivity|apply sub_NaN_r].
Qed.

Lemma nis_NaN z S :
  length z = 3%nat -> coeff z 2 = NaN -> length S = 3%nat -> nis z S = NaN.
Proof.
  intros Hz Hn HS. unfold nis.
  apply dot_NaN with (j := 2%nat); [|sizes|exact Hn].
  rewrite vmmul_length, ncols_inverse. sizes.
Qed.

Lemma gain_times_NaN Tc S z :
  length z = 3%nat -> coeff z 2 = NaN -> length S = 3%nat ->
  all_NaN (mvmul (mmul Tc (inverse S)) z).
Proof.
  intros Hz Hn HS. unfold all_NaN, mvmul, mmul.
  rewrite map_map. apply Forall_map, Forall_forall. intros r _.
  apply dot_NaN with (j := 2%nat); [|sizes|exact Hn].
  rewrite vmmul_length, ncols_inverse. sizes.
Qed.

Lemma vadd_all_NaN a b : all_NaN b -> all_NaN (vadd a b).
Proof.
  unfold all_NaN, vadd. intros Hb. revert a.
  induction Hb as [|y b Hy Hb IH]; intros [|x a]; cbn; constructor.
  - subst y. apply add_NaN_r.
  - apply IH.
Qed.

(** What the radar update does when one predicted sigma point is at the
    origin. *)
Lemma UpdateRadar_at_origin s m i :
  (i < n_sig_ s)%nat ->
  coeff (col (Xsig_pred_ s) i) 0 = Fin 0 ->
  coeff (col (Xsig_pred_ s) i) 1 = Fin 0 ->
  coeff (col (radar_Zsig s) i) 2 = NaN
  /\ nis_radar_ (UpdateRadar s m) = nis_radar_ s ++ [NaN]
  /\ all_NaN (x_ (UpdateRadar s m)).
Proof.
  intros Hi H0 H1.
  assert (HZ : coeff (col (radar_Zsig s) i) 2 = NaN).
  { rewrite radar_Zsig_col by exact Hi. now apply radar_model_at_origin. }
  destruct (radar_z_pred_NaN s Hi HZ) as [_ Hp].
  destruct (radar_residual_NaN s m Hp) as [Hl Hr].
  pose proof (proj1 (radar_S_shape s)) as HS.
  split; [exact HZ|]. split.
  - rewrite UpdateRadar_nis_radar. now rewrite nis_NaN.
  - cbn. apply vadd_all_NaN. now apply gain_times_NaN.
Qed.

(** *** A first radar measurement at range 0 *)

Lemma origin_sigma_point :
  let s := Prediction (initialize fresh radar_at_origin) (Fin 0) in
  (0 < n_sig_ s)%nat
  /\ coeff (col (Xsig_pred_ s) 0) 0 = Fin 0
  /\ coeff (col (Xsig_pred_ s) 0) 1 = Fin 0.
Proof.
  cbv zeta. split; [cbn; lia|].
  rewrite Prediction_col by (cbn; lia).
  rewrite augmented_sigma_points_col0 by (cbn; lia).
  assert (E : augmented_mean (initialize fresh radar_at_origin)
              = [Fin 0; Fin 0; Fin 0; Fin 0; Fin 0; Fin 0; Fin 0]).
  { cbn. rewrite cos_0, sin_0.
    replace (0 * 1 * (0 * 1) + 0 * 0 * (0 * 0)) with 0 by ring.
    rewrite sqrt_0. real_tests. fin_list; ring. }
  rewrite E. unfold ctrv. cbn. rewrite Rabs_R0. real_tests.
  cbn. rewrite cos_0, sin_0. split; f_equal; ring.
Qed.

Lemma ctrv_length c dt : length (ctrv c dt) = 5%nat.
Proof.
  unfold ctrv.
  destruct (Dbl.fabs (coeff c 4) >? Fin (1 / 1000))%D; reflexivity.
Qed.

Lemma weighted_mean_length n w X x0 :
  (forall k, (k < n)%nat -> length (col X k) = length x0) ->
  length (weighted_mean n w X x0) = length x0.
Proof.
  intros H. unfold weighted_mean, for_loop, vadd.
  apply (fold_map2_length Dbl.add (fun k => vscale (coeff w k) (col X k))).
  intros k Hk. apply in_seq in Hk. unfold vscale.
  rewrite length_map. apply H. lia.
Qed.

Lemma cross_correlation_shape s n n_z angle Zsig z_pred :
  (forall k, (k < n)%nat -> length (col Zsig k) = n_z) ->
  length z_pred = n_z ->
  (forall k, (k < n)%nat -> length (col (Xsig_pred_ s) k) = n_x_ s) ->
  length (x_ s) = n_x_ s ->
  shape (n_x_ s) n_z (cross_correlation s n n_z angle Zsig z_pred).
Proof.
  intros HZ Hz HX Hx. unfold cross_correlation, for_loop.
  apply (fold_madd_shape
           (fun k =>
              outer (vscale (coeff (weights_ s) k)
                       (normalize_at 3 (vsub (col (Xsig_pred_ s) k) (x_ s))))
                    (normalize_opt angle (vsub (col Zsig k) z_pred)))).
  - apply mfill_shape.
  - intros k Hk. apply in_seq in Hk.
    assert (E : length (normalize_opt angle (vsub (col Zsig k) z_pred)) = n_z).
    { rewrite normalize_opt_length. unfold vsub.
      rewrite map2_length; rewrite HZ by lia; [reflexivity|sizes]. }
    assert (F : length (normalize_at 3 (vsub (col (Xsig_pred_ s) k) (x_ s)))
                = n_x_ s).
    { unfold normalize_at. rewrite set_coeff_length. unfold vsub.
      rewrite map2_length; rewrite HX by lia; [reflexivity|sizes]. }
    pose proof (outer_shape
                  (vscale (coeff (weights_ s) k)
                     (normalize_at 3 (vsub (col (Xsig_pred_ s) k) (x_ s))))
                  (normalize_opt angle (vsub (col Zsig k) z_pred))) as Ho.
    unfold vscale in Ho at 1. rewrite length_map, E, F in Ho. exact Ho.
Qed.

Lemma all_NaN_repeat v : all_NaN v -> v = repeat NaN (length v).
Proof.
  induction 1 as [|x v Hx Hv IH]; cbn; [reflexivity|]. now rewrite Hx, <- IH.
Qed.

(** The state after a first radar measurement at range 0 on a fresh
    estimator. *)
Lemma first_radar_at_origin :
  let s := ProcessMeasurement fresh radar_at_origin in
  nis_radar_ s = [NaN] /\ x_ s = [NaN; NaN; NaN; NaN; NaN].
Proof.
  cbv zeta. rewrite (first_call fresh radar_at_origin eq_refl).
  cbv zeta. change (sensor_type_ radar_at_origin) with RADAR. cbv iota.
  set (s := Prediction (initialize fresh radar_at_origin) (Fin 0)).
  destruct origin_sigma_point as [Hn [H0 H1]]. fold s in Hn, H0, H1.
  destruct (@UpdateRadar_at_origin s radar_at_origin 0%nat Hn H0 H1)
    as [_ [Hnis Hx]].
  split; [exact Hnis|].
  enough (HL : length (x_ (UpdateRadar s radar_at_origin)) = 5%nat)
    by (rewrite (all_NaN_repeat Hx), HL; reflexivity).
  assert (Hcols : forall k, (k < 15)%nat ->
                            length (col (Xsig_pred_ s) k) = 5%nat).
  { intros k Hk. unfold s. rewrite Prediction_col by (cbn; lia).
    apply ctrv_length. }
  assert (Hxs : length (x_ s) = 5%nat).
  { unfold s. rewrite Prediction_x_. fold s.
    rewrite weighted_mean_length; [reflexivity|].
    intros k Hk. rewrite Hcols by exact Hk. reflexivity. }
  cbn [UpdateRadar x_ set_P_ set_x_ set_nis_radar_].
  unfold vadd, mvmul, mmul. rewrite map2_length.
  - exact Hxs.
  - rewrite !length_map.
    destruct (@cross_correlation_shape s (n_sig_ s) 3 (Some 1%nat)
                (radar_Zsig s) (radar_z_pred s)) as [Hr _].
    + intros k Hk. now rewrite radar_Zsig_col.
    + apply radar_z_pred_length.
    + exact Hcols.
    + exact Hxs.
    + change (n_x_ s) with 5%nat in Hr. sizes.
Qed.




(** C5 as stated fails: the NIS value appended by the update of a first
    radar measurement at range 0 is NaN, which is not a non-negative
    number. *)
Lemma nis_at_origin_is_not_nonnegative :
  nis_radar_ (ProcessMeasurement fresh radar_at_origin) = [NaN]
  /\ ~ Forall nonnegative (nis_radar_ (ProcessMeasurement fresh radar_at_origin)).
Proof.
  destruct first_radar_at_origin as [E _]. split; [exact E|].
  rewrite E. intros H. inversion H as [|? ? Hn _]. exact Hn.
Qed.

(** ** The configuration is kept *)

Lemma fold_set_coeff_length (f : nat -> double) l : forall w,
  length (fold_left (fun w i => set_coeff i (f i) w) l w) = length w.
Proof.
  induction l as [|i l IH]; intros w; cbn; [reflexivity|].
  now rewrite IH, set_coeff_length.
Qed.

Lemma set_weights_length s : length (set_weights s) = length (weights_ s).
Proof.
  unfold set_weights.
  rewrite (fold_set_coeff_length
             (fun _ => (Fin (1 / 2)
                        / (Dbl.of_int (Z.of_nat (n_aug_ s)) + lambda_ s))%D)).
  apply set_coeff_length.
Qed.

Lemma configured_fresh : configured fresh.
Proof. now constructor. Qed.

Lemma configured_Prediction s dt : configured s -> configured (Prediction s dt).
Proof.
  intros [Hnx Hna Hns Hl Hw HX]. constructor; try assumption.
  - cbn [Prediction weights_ set_P_ set_x_ set_weights_].
    now rewrite set_weights_length.
  - cbn [Prediction Xsig_pred_ set_P_ set_x_ set_weights_ set_Xsig_pred_].
    assert (Hle : (n_sig_ s <= length (Xsig_pred_ s))%nat)
      by (rewrite Hns, HX; apply le_n).
    rewrite (proj1 (for_loop_set_col
                      (fun k => ctrv (col (augmented_sigma_points s) k) dt)
                      (Xsig_pred_ s) Hle)).
    exact HX.
Qed.

Lemma configured_initialize s m : configured s -> configured (initialize s m).
Proof.
  intros [Hnx Hna Hns Hl Hw HX]. unfold initialize.
  destruct (sensor_type_ m); now constructor.
Qed.

Lemma configured_UpdateLidar s m : configured s -> configured (UpdateLidar s m).
Proof. intros [Hnx Hna Hns Hl Hw HX]. now constructor. Qed.

Lemma configured_UpdateRadar s m : configured s -> configured (UpdateRadar s m).
Proof. intros [Hnx Hna Hns Hl Hw HX]. now constructor. Qed.

Lemma configured_ProcessMeasurement s m :
  configured s -> configured (ProcessMeasurement s m).
Proof.
  intros H. unfold ProcessMeasurement, predict_and_update.
  set (s' := if negb (is_initialized_ s) then initialize s m else s).
  assert (H' : configured s').
  { unfold s'. destruct (negb (is_initialized_ s));
      [now apply configured_initialize|exact H]. }
  assert (H'' : configured (set_time_us_ (timestamp_ m) s')).
  { destruct H' as [Hnx Hna Hns Hl Hw HX]. now constructor. }
  destruct (sensor_type_ m).
  - now apply configured_UpdateLidar, configured_Prediction.
  - now apply configured_UpdateRadar, configured_Prediction.
  - now apply configured_Prediction.
Qed.

Lemma configured_process_all ms : forall s,
  configured s -> configured (process_all s ms).
Proof.
  unfold process_all.
  induction ms as [|m ms IH]; intros s H; cbn; [exact H|].
  apply IH. now apply configured_ProcessMeasurement.
Qed.

(** ** The weights *)

Lemma set_weights_configured s :
  n_aug_ s = 7%nat -> lambda_ s = Fin (-4) -> length (weights_ s) = 15%nat ->
  set_weights s = Fin (-4 / 3) :: repeat (Fin (1 / 6)) 14.
Proof.
  intros Hn Hl Hw. unfold set_weights. rewrite Hn, Hl.
  remember (weights_ s) as w eqn:Ew. clear Ew.
  do 15 (destruct w as [|? w]; [discriminate Hw|];
         cbn [length] in Hw; apply Nat.succ_inj in Hw).
  destruct w; [|discriminate Hw].
  cbn. real_tests. fin_list; lra.
Qed.

(** C4.  With n_aug_ = 7 and lambda_ = 3 - 7 = -4, as the constructor
    sets them and every later call keeps them, [Prediction] sets weight 0
    to lambda/(lambda + 7), a negative number, and each of the other 14
    weights to 1/(2 (lambda + 7)); the 15 weights sum to 1. *)
Theorem weights_sum_to_one :
  (forall (s : UKF) (delta_t : double),
      configured s ->
      weights_ (Prediction s delta_t)
      = Fin (-4 / (-4 + 7)) :: repeat (Fin (1 / (2 * (-4 + 7)))) 14
      /\ vsum (weights_ (Prediction s delta_t)) = Fin 1)
  /\ -4 / (-4 + 7) < 0
  /\ (forall ms : list MeasurementPackage, configured (process_all fresh ms)).
Proof.
  split; [|split].
  - intros s delta_t [Hnx Hna Hns Hl Hw HX].
    assert (E : weights_ (Prediction s delta_t)
                = Fin (-4 / (-4 + 7))
                  :: repeat (Fin (1 / (2 * (-4 + 7)))) 14).
    { cbn [Prediction weights_ set_P_ set_x_ set_weights_].
      rewrite set_weights_configured by assumption.
      cbn. fin_list; lra. }
    split; [exact E|]. rewrite E. cbn. f_equal. lra.
  - lra.
  - intros ms. apply configured_process_all, configured_fresh.
Qed.

Lemma weights_sum_to_one_witness :
  vsum (weights_ (Prediction (process_all fresh [first_laser; first_radar])
                             (Fin 0)))
  = Fin 1.
Proof.
  exact (proj2 (proj1 weights_sum_to_one
                  (process_all fresh [first_laser; first_radar]) (Fin 0)
                  (proj2 (proj2 weights_sum_to_one)
                     [first_laser; first_radar]))).
Defined.

(** ** The NIS value *)

Lemma quadratic_form_nonneg S y :
  positive_definite S -> length y = length S -> 0 <= quadratic_form S y.
Proof.
  intros PD Hl.
  destruct (Forall_dec (fun a => a = 0) (fun a => Req_dec_T a 0) y) as [Hz|Hn].
  - right. unfold quadratic_form. clear Hl.
    generalize (map (fun r => Rdot r y) S) as v.
    induction Hz as [|a y Ha Hy IH]; intros [|b v]; cbn; try reflexivity.
    rewrite <- IH, Ha. ring.
  - left. apply PD; [exact Hl|].
    apply neg_Forall_Exists_neg in Hn; [|intros a; apply Req_dec_T].
    apply Exists_exists in Hn. exact Hn.
Qed.

Lemma nis_nonneg_2 a b c d e0 e1 :
  positive_definite [[a; b]; [c; d]] ->
  exists q, nis [Fin e0; Fin e1] [[Fin a; Fin b]; [Fin c; Fin d]] = Fin q
            /\ 0 <= q.
Proof.
  intros PD.
  assert (Ha : 0 < a).
  { specialize (PD [1; 0] eq_refl). cbn in PD.
    assert (H : 0 < 1 * (a * 1 + (b * 0 + 0)) + (0 * (c * 1 + (d * 0 + 0)) + 0)).
    { apply PD. exists 1. split; [now left|lra]. }
    lra. }
  set (det := a * d - b * c).
  assert (Hd : 0 < det).
  { specialize (PD [- b; a] eq_refl). cbn in PD.
    assert (H : 0 < - b * (a * - b + (b * a + 0)) + (a * (c * - b + (d * a + 0)) + 0)).
    { apply PD. exists a. split; [right; now left|lra]. }
    unfold det. nra. }
  set (y0 := (d * e0 - b * e1) / det).
  set (y1 := (a * e1 - c * e0) / det).
  assert (Hq : 0 <= quadratic_form [[a; b]; [c; d]] [y0; y1]).
  { destruct (Req_dec y0 0) as [E0|N0].
    - destruct (Req_dec y1 0) as [E1|N1].
      + rewrite E0, E1. cbn. lra.
      + apply Rlt_le, PD; [reflexivity|]. exists y1. split; [right; now left|exact N1].
    - apply Rlt_le, PD; [reflexivity|]. exists y0. split; [now left|exact N0]. }
  exists (quadratic_form [[a; b]; [c; d]] [y0; y1]). split; [|exact Hq].
  unfold nis, inverse, determinant, cofactor. cbn.
  destruct (Req_dec_T _ 0) as [E|_].
  - exfalso. unfold det in Hd. lra.
  - cbn. f_equal. unfold y0, y1, det. field. unfold det in Hd. lra.
Qed.

Lemma nis_nonneg_3 a b c d e f g h i r0 r1 r2 :
  positive_definite [[a; b; c]; [d; e; f]; [g; h; i]] ->
  exists q,
    nis [Fin r0; Fin r1; Fin r2]
        [[Fin a; Fin b; Fin c]; [Fin d; Fin e; Fin f]; [Fin g; Fin h; Fin i]]
    = Fin q
    /\ 0 <= q.
Proof.
  intros PD.
  set (S := [[a; b; c]; [d; e; f]; [g; h; i]]) in *.
  assert (Ha : 0 < a).
  { assert (H : 0 < quadratic_form S [1; 0; 0]).
    { apply PD; [reflexivity|]. exists 1. split; [now left|lra]. }
    cbn in H. lra. }
  set (d2 := a * e - b * d).
  assert (Hd2 : 0 < d2).
  { assert (H : 0 < quadratic_form S [- b; a; 0]).
    { apply PD; [reflexivity|]. exists a. split; [right; now left|lra]. }
    cbn in H. unfold d2. nra. }
  set (det := a * (e * i - f * h) - b * (d * i - f * g) + c * (d * h - e * g)).
  assert (Hd : 0 < det).
  { assert (H : 0 < quadratic_form S [b * f - c * e; c * d - a * f; d2]).
    { apply PD; [reflexivity|]. exists d2.
      split; [right; right; now left|lra]. }
    assert (E : quadratic_form S [b * f - c * e; c * d - a * f; d2]
                = det * d2) by (unfold d2, det; cbn; ring).
    rewrite E in H. nra. }
  set (y0 := ((e * i - f * h) * r0 - (b * i - c * h) * r1
              + (b * f - c * e) * r2) / det).
  set (y1 := (- (d * i - f * g) * r0 + (a * i - c * g) * r1
              - (a * f - c * d) * r2) / det).
  set (y2 := ((d * h - e * g) * r0 - (a * h - b * g) * r1
              + (a * e - b * d) * r2) / det).
  exists (quadratic_form S [y0; y1; y2]).
  split; [|now apply quadratic_form_nonneg].
  unfold nis, inverse, determinant, cofactor. cbn.
  destruct (Req_dec_T _ 0) as [E|_].
  - exfalso. unfold det in Hd. lra.
  - cbn. f_equal. unfold y0, y1, y2, det. field. unfold det in Hd. lra.
Qed.

Lemma finite_2x2 (S : MatrixXd) (Sr : list (list R)) :
  shape 2 2 S -> S = map (map Fin) Sr ->
  exists a b c d, Sr = [[a; b]; [c; d]].
Proof.
  intros [Hl Hr] ->.
  destruct Sr as [|r0 [|r1 [|? ?]]]; try discriminate Hl.
  apply Forall_cons_iff in Hr. destruct Hr as [L0 Hr].
  apply Forall_cons_iff in Hr. destruct Hr as [L1 _].
  rewrite length_map in L0, L1.
  destruct r0 as [|a [|b [|? ?]]]; try discriminate L0.
  destruct r1 as [|c [|d [|? ?]]]; try discriminate L1.
  now exists a, b, c, d.
Qed.

Lemma finite_3x3 (S : MatrixXd) (Sr : list (list R)) :
  shape 3 3 S -> S = map (map Fin) Sr ->
  exists a b c d e f g h i, Sr = [[a; b; c]; [d; e; f]; [g; h; i]].
Proof.
  intros [Hl Hr] ->.
  destruct Sr as [|r0 [|r1 [|r2 [|? ?]]]]; try discriminate Hl.
  apply Forall_cons_iff in Hr. destruct Hr as [L0 Hr].
  apply Forall_cons_iff in Hr. destruct Hr as [L1 Hr].
  apply Forall_cons_iff in Hr. destruct Hr as [L2 _].
  rewrite length_map in L0, L1, L2.
  destruct r0 as [|a [|b [|c [|? ?]]]]; try discriminate L0.
  destruct r1 as [|d [|e [|f [|? ?]]]]; try discriminate L1.
  destruct r2 as [|g [|h [|i [|? ?]]]]; try discriminate L2.
  now exists a, b, c, d, e, f, g, h, i.
Qed.

Lemma lidar_residual_length s m : length (lidar_residual s m) = 2%nat.
Proof.
  unfold lidar_residual, vsub. rewrite map2_length; [reflexivity|].
  now rewrite lidar_z_pred_length.
Qed.

Lemma radar_residual_length s m : length (radar_residual s m) = 3%nat.
Proof.
  unfold radar_residual, normalize_at, vsub.
  rewrite set_coeff_length, map2_length; [reflexivity|].
  now rewrite radar_z_pred_length.
Qed.

(** C5, as the code has it.  For a lidar or radar update whose
    innovation covariance S is a matrix of finite numbers that is
    positive definite and whose residual is finite, the scalar
    residual^T S^-1 residual appended to the NIS history of the sensor is
    a finite number that is at least 0. *)
Theorem nis_nonnegative_for_positive_definite_S
  (s : UKF) (m : MeasurementPackage) :
  (forall (Sr : list (list R)) (r : list R),
      lidar_S s = map (map Fin) Sr ->
      positive_definite Sr ->
      lidar_residual s m = map Fin r ->
      exists q, nis_laser_ (UpdateLidar s m) = nis_laser_ s ++ [Fin q]
                /\ 0 <= q)
  /\ (forall (Sr : list (list R)) (r : list R),
         radar_S s = map (map Fin) Sr ->
         positive_definite Sr ->
         radar_residual s m = map Fin r ->
         exists q, nis_radar_ (UpdateRadar s m) = nis_radar_ s ++ [Fin q]
                   /\ 0 <= q).
Proof.
  split; intros Sr r HS PD Hr.
  - destruct (@finite_2x2 _ _ (lidar_S_shape s) HS) as [a [b [c [d ->]]]].
    pose proof (lidar_residual_length s m) as Hl.
    rewrite Hr, length_map in Hl.
    destruct r as [|r0 [|r1 [|? ?]]]; try discriminate Hl.
    destruct (@nis_nonneg_2 _ _ _ _ r0 r1 PD) as [q [Hq Hpos]].
    exists q. split; [|exact Hpos].
    rewrite UpdateLidar_nis_laser, HS, Hr. cbn [map]. now rewrite Hq.
  - destruct (@finite_3x3 _ _ (radar_S_shape s) HS)
      as [a [b [c [d [e [f [g [h [i ->]]]]]]]]].
    pose proof (radar_residual_length s m) as Hl.
    rewrite Hr, length_map in Hl.
    destruct r as [|r0 [|r1 [|r2 [|? ?]]]]; try discriminate Hl.
    destruct (@nis_nonneg_3 _ _ _ _ _ _ _ _ _ r0 r1 r2 PD) as [q [Hq Hpos]].
    exists q. split; [|exact Hpos].
    rewrite UpdateRadar_nis_radar, HS, Hr. cbn [map]. now rewrite Hq.
Qed.

(** *** Positive definite diagonal matrices *)

Lemma square_pos a : a <> 0 -> 0 < a * a.
Proof. intros H. nra. Qed.

Lemma positive_definite_diag2 p q :
  0 < p -> 0 < q -> positive_definite [[p; 0]; [0; q]].
Proof.
  intros Hp Hq y Hl [a [Ha Hn]].
  destruct y as [|y0 [|y1 [|? ?]]]; try discriminate Hl.
  cbn. pose proof (Rle_0_sqr y0) as S0. pose proof (Rle_0_sqr y1) as S1.
  unfold Rsqr in *.
  destruct Ha as [<-|[<-|[]]]; pose proof (square_pos Hn); nra.
Qed.

Lemma positive_definite_diag3 p q t :
  0 < p -> 0 < q -> 0 < t -> positive_definite [[p; 0; 0]; [0; q; 0]; [0; 0; t]].
Proof.
  intros Hp Hq Ht y Hl [a [Ha Hn]].
  destruct y as [|y0 [|y1 [|y2 [|? ?]]]]; try discriminate Hl.
  cbn. pose proof (Rle_0_sqr y0) as S0. pose proof (Rle_0_sqr y1) as S1.
  pose proof (Rle_0_sqr y2) as S2. unfold Rsqr in *.
  destruct Ha as [<-|[<-|[<-|[]]]]; pose proof (square_pos Hn); nra.
Qed.

(** ** The first call, step by step

    The first call on a fresh estimator, followed through the Cholesky
    factor, the sigma points, the motion model, the weighted mean and
    covariance and the update, for a belief with a diagonal covariance. *)

Lemma le_Fin_false a : 0 < a -> Dbl.le (Fin a) Dbl.zero = false.
Proof.
  intros H. unfold Dbl.le, Dbl.zero.
  destruct (Rle_dec a 0); [lra|reflexivity].
Qed.

Lemma sqrt_Fin_square a b : 0 < a -> b = a * a -> Dbl.sqrt (Fin b) = Fin a.
Proof.
  intros H ->. rewrite sqrt_Fin by nra. now rewrite sqrt_square by lra.
Qed.

(** One column of the factorisation, when the pivot is [e * e > 0]. *)
Lemma llt_inplace_step k ks mat e :
  0 < e ->
  (let A10 := firstn k (nth k mat []) in
   let x := mcoeff mat k k in
   if (0 <? k)%nat then (x - dot A10 A10)%D else x) = Fin (e * e) ->
  llt_inplace (k :: ks) mat = llt_inplace ks (llt_column k mat (Fin e)).
Proof.
  intros He Hx. cbn [llt_inplace]. cbv zeta in Hx |- *. rewrite Hx.
  rewrite le_Fin_false by nra.
  now rewrite (@sqrt_Fin_square e) by (lra || reflexivity).
Qed.

Section DiagonalFactor.

Variables e0 e1 e2 e3 e4 e5 e6 : R.
Hypothesis H0 : 0 < e0.
Hypothesis H1 : 0 < e1.
Hypothesis H2 : 0 < e2.
Hypothesis H3 : 0 < e3.
Hypothesis H4 : 0 < e4.
Hypothesis H5 : 0 < e5.
Hypothesis H6 : 0 < e6.

Ltac llt_step e :=
  rewrite (@llt_inplace_step _ _ _ e); [|assumption|cbn; fin_list; ring];
  match goal with
  | |- context [llt_column ?k ?m ?d] =>
      let M := fresh "M" in
      set (M := llt_column k m d); cbn in M; subst M
  end;
  real_tests;
  repeat match goal with
    | |- context [Fin (?n / ?d)] => replace (n / d) with 0 by (field; lra)
    end.

(** The Cholesky factor of a positive diagonal matrix is the diagonal
    matrix of the square roots. *)
Lemma llt_diag :
  llt_matrixL (diag [Fin (e0 * e0); Fin (e1 * e1); Fin (e2 * e2);
                     Fin (e3 * e3); Fin (e4 * e4); Fin (e5 * e5);
                     Fin (e6 * e6)])
  = diag [Fin e0; Fin e1; Fin e2; Fin e3; Fin e4; Fin e5; Fin e6].
Proof.
  unfold llt_matrixL.
  cbn [diag length seq map set_coeff coeff nth fill repeat].
  llt_step e0. llt_step e1. llt_step e2. llt_step e3.
  llt_step e4. llt_step e5. llt_step e6.
  reflexivity.
Qed.

End DiagonalFactor.

Lemma spread_facts : 0 < spread /\ spread * spread = 3 /\ spread < 2.
Proof.
  unfold spread. replace (-4 + 7) with 3 by ring.
  assert (H : 0 < sqrt 3) by (apply sqrt_lt_R0; lra).
  assert (H2 : sqrt 3 * sqrt 3 = 3) by (apply sqrt_sqrt; lra).
  repeat split; [exact H|exact H2|nra].
Qed.

(** With a zero interval the motion model leaves a finite sigma point
    where it is, in either branch. *)
Lemma ctrv_zero_interval a b v yaw yawd nu_a nu_y :
  ctrv [Fin a; Fin b; Fin v; Fin yaw; Fin yawd; Fin nu_a; Fin nu_y] (Fin 0)
  = [Fin a; Fin b; Fin v; Fin yaw; Fin yawd].
Proof.
  unfold ctrv. cbn [coeff nth Dbl.fabs Dbl.lift1].
  destruct (Rlt_dec (1 / 1000) (Rabs yawd)) as [Hg|Hg].
  - assert (Hz : yawd <> 0). { intros ->. rewrite Rabs_R0 in Hg. lra. }
    rewrite (gt_Fin_true Hg), (div_Fin v Hz). cbn.
    replace (yaw + yawd * 0) with yaw by ring.
    fin_list; try field; exact Hz.
  - rewrite gt_Fin_false by lra. cbn. fin_list; ring.
Qed.

(** The state and the covariance that the two updates write. *)
Lemma UpdateLidar_x_ s mp :
  x_ (UpdateLidar s mp)
  = vadd (x_ s)
         (mvmul (mmul (cross_correlation s (2 * n_aug_ s + 1) 2 None
                         (lidar_Zsig s) (lidar_z_pred s))
                      (inverse (lidar_S s)))
                (lidar_residual s mp)).
Proof. reflexivity. Qed.

Lemma UpdateLidar_P_ s mp :
  P_ (UpdateLidar s mp)
  = let K := mmul (cross_correlation s (2 * n_aug_ s + 1) 2 None
                     (lidar_Zsig s) (lidar_z_pred s))
                  (inverse (lidar_S s)) in
    msub (P_ s) (mmul (mmul K (lidar_S s)) (transpose K)).
Proof. reflexivity. Qed.

Lemma inverse_diag2 a b :
  a <> 0 -> b <> 0 ->
  inverse (map (map Fin) [[a; 0]; [0; b]]) = map (map Fin) [[/ a; 0]; [0; / b]].
Proof.
  intros Ha Hb. unfold inverse, determinant, cofactor. cbn.
  destruct (Req_dec_T _ 0) as [E|_]; [exfalso; nra|].
  fin_list; field; auto.
Qed.

Lemma inverse_diag3 a b c :
  a <> 0 -> b <> 0 -> c <> 0 ->
  inverse (map (map Fin) [[a; 0; 0]; [0; b; 0]; [0; 0; c]])
  = map (map Fin) [[/ a; 0; 0]; [0; / b; 0]; [0; 0; / c]].
Proof.
  intros Ha Hb Hc. unfold inverse, determinant, cofactor. cbn.
  assert (Hd : a * b * c <> 0)
    by (repeat apply Rmult_integral_contrapositive_currified; assumption).
  destruct (Req_dec_T _ 0) as [E|_].
  - exfalso. apply Hd. rewrite <- E. ring.
  - fin_list; field; auto.
Qed.

(** A loop that writes every column leaves nothing of the old matrix. *)
Lemma for_loop_set_col_all (g : nat -> VectorXd) X :
  for_loop (length X) (fun X i => set_col i (g i) X) X
  = map g (seq 0 (length X)).
Proof.
  destruct (@for_loop_set_col g X (length X) (le_n _)) as [Hl Hc].
  apply (nth_ext _ _ [] []).
  - rewrite length_map, length_seq. exact Hl.
  - intros i Hi. unfold Columns, VectorXd in *. rewrite Hl in Hi.
    rewrite (nth_map_seq g [] Hi). exact (Hc i Hi).
Qed.

(** The radar model on a finite sigma point ahead of the sensor. *)
Lemma radar_model_ahead p_x p_y v yaw yawd :
  0 < p_x ->
  radar_model [Fin p_x; Fin p_y; Fin v; Fin yaw; Fin yawd]
  = [Fin (sqrt (p_x * p_x + p_y * p_y));
     Fin (atan (p_y / p_x));
     Fin ((p_x * (cos yaw * v) + p_y * (sin yaw * v))
          / sqrt (p_x * p_x + p_y * p_y))].
Proof.
  intros Hp. unfold radar_model. cbn.
  assert (Hs : 0 < sqrt (p_x * p_x + p_y * p_y)) by (apply sqrt_lt_R0; nra).
  destruct (Rlt_dec (p_x * p_x + p_y * p_y) 0) as [H|_]; [nra|].
  cbn. destruct (Req_dec_T (sqrt (p_x * p_x + p_y * p_y)) 0) as [H|_]; [lra|].
  unfold Dbl.Ratan2. destruct (Rlt_dec 0 p_x) as [_|H]; [|lra].
  reflexivity.
Qed.

Lemma UpdateRadar_x_ s mp :
  x_ (UpdateRadar s mp)
  = vadd (x_ s)
         (mvmul (mmul (cross_correlation s (n_sig_ s) 3 (Some 1%nat)
                         (radar_Zsig s) (radar_z_pred s))
                      (inverse (radar_S s)))
                (radar_residual s mp)).
Proof. reflexivity. Qed.

Lemma UpdateRadar_P_ s mp :
  P_ (UpdateRadar s mp)
  = let K := mmul (cross_correlation s (n_sig_ s) 3 (Some 1%nat)
                     (radar_Zsig s) (radar_z_pred s))
                  (inverse (radar_S s)) in
    msub (P_ s) (mmul (mmul K (radar_S s)) (transpose K)).
Proof. reflexivity. Qed.

(** *** Prediction over a zero interval, and the lidar update *)

Section ZeroInterval.

Variable s : UKF.
Variables x0 x1 x2 x3 x4 : R.
Variables e0 e1 e2 e3 e4 ea ey : R.
Hypothesis Hcfg : configured s.
Hypothesis Hx : x_ s = [Fin x0; Fin x1; Fin x2; Fin x3; Fin x4].
Hypothesis HP :
  P_ s = diag [Fin (e0 * e0); Fin (e1 * e1); Fin (e2 * e2); Fin (e3 * e3);
               Fin (e4 * e4)].
Hypothesis Ha : std_a_ s = Fin ea.
Hypothesis Hy : std_yawdd_ s = Fin ey.
Hypothesis He0 : 0 < e0.
Hypothesis He1 : 0 < e1.
Hypothesis He2 : 0 < e2.
Hypothesis He3 : 0 < e3.
Hypothesis He4 : 0 < e4.
Hypothesis Hea : 0 < ea.
Hypothesis Hey : 0 < ey.
Hypothesis Hyaw : e3 <= 3 / 2.

Local Abbreviation q := spread.

Lemma zi_augmented_mean :
  augmented_mean s = [Fin x0; Fin x1; Fin x2; Fin x3; Fin x4; Fin 0; Fin 0].
Proof.
  destruct Hcfg as [Hnx Hna _ _ _ _].
  unfold augmented_mean. rewrite Hx, Hnx, Hna. reflexivity.
Qed.

Lemma zi_augmented_covariance :
  augmented_covariance s
  = diag [Fin (e0 * e0); Fin (e1 * e1); Fin (e2 * e2); Fin (e3 * e3);
          Fin (e4 * e4); Fin (ea * ea); Fin (ey * ey)].
Proof.
  destruct Hcfg as [Hnx Hna _ _ _ _].
  unfold augmented_covariance. rewrite HP, Hna, Ha, Hy. reflexivity.
Qed.

Lemma zi_sigma_points :
  augmented_sigma_points s
  = [[Fin x0; Fin x1; Fin x2; Fin x3; Fin x4; Fin 0; Fin 0];
     [Fin (x0 + q * e0); Fin x1; Fin x2; Fin x3; Fin x4; Fin 0; Fin 0];
     [Fin x0; Fin (x1 + q * e1); Fin x2; Fin x3; Fin x4; Fin 0; Fin 0];
     [Fin x0; Fin x1; Fin (x2 + q * e2); Fin x3; Fin x4; Fin 0; Fin 0];
     [Fin x0; Fin x1; Fin x2; Fin (x3 + q * e3); Fin x4; Fin 0; Fin 0];
     [Fin x0; Fin x1; Fin x2; Fin x3; Fin (x4 + q * e4); Fin 0; Fin 0];
     [Fin x0; Fin x1; Fin x2; Fin x3; Fin x4; Fin (q * ea); Fin 0];
     [Fin x0; Fin x1; Fin x2; Fin x3; Fin x4; Fin 0; Fin (q * ey)];
     [Fin (x0 - q * e0); Fin x1; Fin x2; Fin x3; Fin x4; Fin 0; Fin 0];
     [Fin x0; Fin (x1 - q * e1); Fin x2; Fin x3; Fin x4; Fin 0; Fin 0];
     [Fin x0; Fin x1; Fin (x2 - q * e2); Fin x3; Fin x4; Fin 0; Fin 0];
     [Fin x0; Fin x1; Fin x2; Fin (x3 - q * e3); Fin x4; Fin 0; Fin 0];
     [Fin x0; Fin x1; Fin x2; Fin x3; Fin (x4 - q * e4); Fin 0; Fin 0];
     [Fin x0; Fin x1; Fin x2; Fin x3; Fin x4; Fin (- (q * ea)); Fin 0];
     [Fin x0; Fin x1; Fin x2; Fin x3; Fin x4; Fin 0; Fin (- (q * ey))]].
Proof.
  unfold augmented_sigma_points.
  rewrite zi_augmented_mean, zi_augmented_covariance.
  rewrite llt_diag by assumption.
  destruct Hcfg as [Hnx Hna Hns Hl _ _]. rewrite Hna, Hns, Hl.
  cbn. real_tests. cbn. fold spread. fin_list; ring.
Qed.

Lemma zi_predicted_points :
  Xsig_pred_ (Prediction s (Fin 0))
  = [[Fin x0; Fin x1; Fin x2; Fin x3; Fin x4];
     [Fin (x0 + q * e0); Fin x1; Fin x2; Fin x3; Fin x4];
     [Fin x0; Fin (x1 + q * e1); Fin x2; Fin x3; Fin x4];
     [Fin x0; Fin x1; Fin (x2 + q * e2); Fin x3; Fin x4];
     [Fin x0; Fin x1; Fin x2; Fin (x3 + q * e3); Fin x4];
     [Fin x0; Fin x1; Fin x2; Fin x3; Fin (x4 + q * e4)];
     [Fin x0; Fin x1; Fin x2; Fin x3; Fin x4];
     [Fin x0; Fin x1; Fin x2; Fin x3; Fin x4];
     [Fin (x0 - q * e0); Fin x1; Fin x2; Fin x3; Fin x4];
     [Fin x0; Fin (x1 - q * e1); Fin x2; Fin x3; Fin x4];
     [Fin x0; Fin x1; Fin (x2 - q * e2); Fin x3; Fin x4];
     [Fin x0; Fin x1; Fin x2; Fin (x3 - q * e3); Fin x4];
     [Fin x0; Fin x1; Fin x2; Fin x3; Fin (x4 - q * e4)];
     [Fin x0; Fin x1; Fin x2; Fin x3; Fin x4];
     [Fin x0; Fin x1; Fin x2; Fin x3; Fin x4]].
Proof.
  cbn [Prediction Xsig_pred_ set_P_ set_x_ set_weights_ set_Xsig_pred_].
  destruct Hcfg as [Hnx Hna Hns Hl Hw HX].
  rewrite Hns, <- HX, for_loop_set_col_all, HX.
  rewrite zi_sigma_points.
  cbn [seq map col nth].
  rewrite !ctrv_zero_interval. reflexivity.
Qed.

Lemma zi_weights :
  weights_ (Prediction s (Fin 0)) = Fin (-4 / 3) :: repeat (Fin (1 / 6)) 14.
Proof.
  destruct Hcfg as [Hnx Hna Hns Hl Hw HX].
  now apply set_weights_configured.
Qed.

Lemma zi_mean :
  x_ (Prediction s (Fin 0)) = [Fin x0; Fin x1; Fin x2; Fin x3; Fin x4].
Proof.
  rewrite Prediction_x_, zi_weights, zi_predicted_points, Hx.
  destruct Hcfg as [Hnx Hna Hns Hl Hw HX]. rewrite Hns.
  cbn. fin_list; lra.
Qed.

Lemma zi_covariance :
  P_ (Prediction s (Fin 0))
  = diag [Fin (e0 * e0); Fin (e1 * e1); Fin (e2 * e2); Fin (e3 * e3);
          Fin (e4 * e4)].
Proof.
  destruct spread_facts as [Hq0 [Hq2 Hq3]]. pose proof PI_gt_3 as Hpi.
  rewrite Prediction_P_, zi_weights, zi_predicted_points, zi_mean, HP.
  destruct Hcfg as [Hnx Hna Hns Hl Hw HX]. rewrite Hns.
  unfold predicted_covariance, for_loop.
  cbn -[normalize_angle].
  rewrite !normalize_angle_fixed by nra.
  cbn. fin_list; nra.
Qed.


(** *** The lidar update that follows *)

Variables sx sy : R.
Hypothesis Hsx : std_laspx_ s = Fin sx.
Hypothesis Hsy : std_laspy_ s = Fin sy.
Hypothesis Hsx0 : 0 < sx.
Hypothesis Hsy0 : 0 < sy.

Local Abbreviation s1 := (Prediction s (Fin 0)).

Lemma zi_lidar_z_pred : lidar_z_pred s1 = [Fin x0; Fin x1].
Proof.
  unfold lidar_z_pred, lidar_Zsig, predicted_measurement.
  rewrite zi_weights, zi_predicted_points.
  destruct Hcfg as [Hnx Hna Hns Hl Hw HX].
  change (n_sig_ s1) with (n_sig_ s). rewrite Hns.
  cbn. fin_list; lra.
Qed.

Lemma zi_lidar_S :
  lidar_S s1 = map (map Fin) [[e0 * e0 + sx * sx; 0]; [0; e1 * e1 + sy * sy]].
Proof.
  destruct spread_facts as [Hq0 [Hq2 Hq3]].
  unfold lidar_S. rewrite zi_lidar_z_pred.
  unfold lidar_Zsig, innovation_sum.
  rewrite zi_weights, zi_predicted_points.
  destruct Hcfg as [Hnx Hna Hns Hl Hw HX].
  change (n_sig_ s1) with (n_sig_ s). rewrite Hns.
  change (std_laspx_ s1) with (std_laspx_ s).
  change (std_laspy_ s1) with (std_laspy_ s). rewrite Hsx, Hsy.
  cbn. fin_list; nra.
Qed.

Lemma zi_lidar_Tc :
  cross_correlation s1 (2 * n_aug_ s1 + 1) 2 None (lidar_Zsig s1)
                    (lidar_z_pred s1)
  = map (map Fin) [[e0 * e0; 0]; [0; e1 * e1]; [0; 0]; [0; 0]; [0; 0]].
Proof.
  destruct spread_facts as [Hq0 [Hq2 Hq3]]. pose proof PI_gt_3 as Hpi.
  rewrite zi_lidar_z_pred.
  unfold cross_correlation, lidar_Zsig.
  rewrite zi_weights, zi_predicted_points, zi_mean.
  destruct Hcfg as [Hnx Hna Hns Hl Hw HX].
  change (n_sig_ s1) with (n_sig_ s). change (n_aug_ s1) with (n_aug_ s).
  change (n_x_ s1) with (n_x_ s). rewrite Hns, Hna, Hnx.
  unfold for_loop.
  cbn -[normalize_angle].
  rewrite !normalize_angle_fixed by nra.
  cbn. fin_list; nra.
Qed.

Lemma zi_lidar_gain :
  mmul (cross_correlation s1 (2 * n_aug_ s1 + 1) 2 None (lidar_Zsig s1)
          (lidar_z_pred s1))
       (inverse (lidar_S s1))
  = map (map Fin) [[e0 * e0 / (e0 * e0 + sx * sx); 0];
                   [0; e1 * e1 / (e1 * e1 + sy * sy)];
                   [0; 0]; [0; 0]; [0; 0]].
Proof.
  rewrite zi_lidar_Tc, zi_lidar_S, inverse_diag2 by nra.
  cbn. fin_list; field; nra.
Qed.

Variables z0 z1 : R.
Variable m : MeasurementPackage.
Hypothesis Hm : raw_measurements_ m = [Fin z0; Fin z1].

Lemma zi_lidar_residual :
  lidar_residual s1 m = [Fin (z0 - x0); Fin (z1 - x1)].
Proof.
  unfold lidar_residual, lidar_z. rewrite zi_lidar_z_pred, Hm. reflexivity.
Qed.

Lemma zi_lidar_update :
  x_ (UpdateLidar s1 m)
  = [Fin (x0 + e0 * e0 / (e0 * e0 + sx * sx) * (z0 - x0));
     Fin (x1 + e1 * e1 / (e1 * e1 + sy * sy) * (z1 - x1));
     Fin x2; Fin x3; Fin x4]
  /\ P_ (UpdateLidar s1 m)
     = diag [Fin (e0 * e0 * (sx * sx) / (e0 * e0 + sx * sx));
             Fin (e1 * e1 * (sy * sy) / (e1 * e1 + sy * sy));
             Fin (e2 * e2); Fin (e3 * e3); Fin (e4 * e4)]
  /\ nis_laser_ (UpdateLidar s1 m)
     = nis_laser_ s
       ++ [Fin ((z0 - x0) * (z0 - x0) / (e0 * e0 + sx * sx)
                + (z1 - x1) * (z1 - x1) / (e1 * e1 + sy * sy))].
Proof.
  split; [|split].
  - rewrite UpdateLidar_x_, zi_lidar_gain, zi_lidar_residual, zi_mean.
    cbn. fin_list; ring.
  - rewrite UpdateLidar_P_, zi_lidar_gain, zi_lidar_S. cbv zeta.
    rewrite zi_covariance. cbn. fin_list; field; nra.
  - rewrite UpdateLidar_nis_laser, zi_lidar_residual, zi_lidar_S.
    unfold nis. rewrite inverse_diag2 by nra. apply f_equal.
    cbn. fin_list; field; nra.
Qed.

End ZeroInterval.

(** *** A first laser measurement *)

Lemma first_laser_configured px py t :
  configured (initialize fresh (laser_at px py t)).
Proof. now constructor. Qed.

(** The state after the first call: the position measured, the position
    variances halved by the update, and a NIS value of 0. *)
Lemma first_laser_call px py t :
  let s := ProcessMeasurement fresh (laser_at px py t) in
  x_ s = [Fin px; Fin py; Fin 0; Fin 0; Fin 0]
  /\ P_ s = diag [Fin (15 / 100 * (15 / 100) / 2);
                  Fin (15 / 100 * (15 / 100) / 2); Fin 1; Fin 1; Fin 1]
  /\ nis_laser_ s = [Fin 0]
  /\ lidar_S (Prediction (initialize fresh (laser_at px py t)) (Fin 0))
     = map (map Fin) [[15 / 100 * (15 / 100) + 15 / 100 * (15 / 100); 0];
                      [0; 15 / 100 * (15 / 100) + 15 / 100 * (15 / 100)]]
  /\ lidar_residual (Prediction (initialize fresh (laser_at px py t)) (Fin 0))
                    (laser_at px py t)
     = map Fin [px - px; py - py].
Proof.
  cbv zeta. rewrite (first_call fresh (laser_at px py t) eq_refl).
  cbv zeta. change (sensor_type_ (laser_at px py t)) with LASER. cbv iota.
  assert (HP : P_ (initialize fresh (laser_at px py t))
               = diag [Fin (15 / 100 * (15 / 100)); Fin (15 / 100 * (15 / 100));
                       Fin (1 * 1); Fin (1 * 1); Fin (1 * 1)])
    by (cbn; fin_list; try reflexivity; ring).
  destruct (@zi_lidar_update (initialize fresh (laser_at px py t))
              px py 0 0 0 (15 / 100) (15 / 100) 1 1 1 (28 / 10) (11 / 10)
              (first_laser_configured px py t) eq_refl HP eq_refl eq_refl
              ltac:(lra) ltac:(lra) ltac:(lra) ltac:(lra) ltac:(lra)
              ltac:(lra) ltac:(lra) ltac:(lra)
              (15 / 100) (15 / 100) eq_refl eq_refl ltac:(lra) ltac:(lra)
              px py (laser_at px py t) eq_refl) as [Hx [HP' Hn]].
  split; [|split; [|split; [|split]]].
  - rewrite Hx. fin_list; field.
  - rewrite HP'. cbn. fin_list; field.
  - rewrite Hn. cbn. fin_list. field.
  - apply (@zi_lidar_S (initialize fresh (laser_at px py t))
             px py 0 0 0 (15 / 100) (15 / 100) 1 1 1 (28 / 10) (11 / 10));
      (lra || reflexivity || assumption
       || apply first_laser_configured).
  - apply (@zi_lidar_residual (initialize fresh (laser_at px py t))
             px py 0 0 0 (15 / 100) (15 / 100) 1 1 1 (28 / 10) (11 / 10));
      (lra || reflexivity || assumption
       || apply first_laser_configured).
Qed.

(** *** A first radar measurement straight ahead *)

Section FirstRadar.

Variable rho : R.
Variable t : Z.
Hypothesis Hrho : 11 / 10 <= rho.

Local Abbreviation q := spread.
Local Abbreviation c := (side_range rho).
Local Abbreviation phi := (side_bearing rho).
Local Abbreviation s0 := (initialize fresh (radar_at rho t)).
Local Abbreviation s1 := (Prediction (initialize fresh (radar_at rho t)) (Fin 0)).

Lemma side_range_facts : rho < c /\ c * c = rho * rho + 27 / 100.
Proof.
  unfold side_range.
  assert (H : sqrt (rho * rho + 27 / 100) * sqrt (rho * rho + 27 / 100)
              = rho * rho + 27 / 100) by (apply sqrt_sqrt; nra).
  assert (H0 : 0 <= sqrt (rho * rho + 27 / 100)) by apply sqrt_pos.
  split; [nra|exact H].
Qed.

Lemma side_bearing_bound : - (PI / 2) < phi < PI / 2.
Proof.
  unfold side_bearing.
  pose proof (atan_bound (spread * (3 / 10) / rho)). lra.
Qed.

Lemma first_radar_configured : configured s0.
Proof. now constructor. Qed.

Lemma first_radar_x : x_ s0 = [Fin rho; Fin 0; Fin 0; Fin 0; Fin 0].
Proof.
  cbn. rewrite cos_0, sin_0.
  replace (0 * 1 * (0 * 1) + 0 * 0 * (0 * 0)) with 0 by ring.
  rewrite sqrt_0. real_tests. fin_list; ring.
Qed.

Lemma first_radar_P :
  P_ s0 = diag [Fin (3 / 10 * (3 / 10)); Fin (3 / 10 * (3 / 10)); Fin (1 * 1);
                Fin (3 / 100 * (3 / 100)); Fin (3 / 100 * (3 / 100))].
Proof. cbn. fin_list; try reflexivity; ring. Qed.

Lemma first_radar_points :
  Xsig_pred_ s1
  = [[Fin rho; Fin 0; Fin 0; Fin 0; Fin 0];
     [Fin (rho + q * (3 / 10)); Fin 0; Fin 0; Fin 0; Fin 0];
     [Fin rho; Fin (0 + q * (3 / 10)); Fin 0; Fin 0; Fin 0];
     [Fin rho; Fin 0; Fin (0 + q * 1); Fin 0; Fin 0];
     [Fin rho; Fin 0; Fin 0; Fin (0 + q * (3 / 100)); Fin 0];
     [Fin rho; Fin 0; Fin 0; Fin 0; Fin (0 + q * (3 / 100))];
     [Fin rho; Fin 0; Fin 0; Fin 0; Fin 0];
     [Fin rho; Fin 0; Fin 0; Fin 0; Fin 0];
     [Fin (rho - q * (3 / 10)); Fin 0; Fin 0; Fin 0; Fin 0];
     [Fin rho; Fin (0 - q * (3 / 10)); Fin 0; Fin 0; Fin 0];
     [Fin rho; Fin 0; Fin (0 - q * 1); Fin 0; Fin 0];
     [Fin rho; Fin 0; Fin 0; Fin (0 - q * (3 / 100)); Fin 0];
     [Fin rho; Fin 0; Fin 0; Fin 0; Fin (0 - q * (3 / 100))];
     [Fin rho; Fin 0; Fin 0; Fin 0; Fin 0];
     [Fin rho; Fin 0; Fin 0; Fin 0; Fin 0]].
Proof.
  apply (@zi_predicted_points s0 rho 0 0 0 0
           (3 / 10) (3 / 10) 1 (3 / 100) (3 / 100) (28 / 10) (11 / 10));
    try lra; try reflexivity.
  - exact first_radar_configured.
  - exact first_radar_x.
  - exact first_radar_P.
Qed.

Lemma first_radar_mean : x_ s1 = [Fin rho; Fin 0; Fin 0; Fin 0; Fin 0].
Proof.
  apply (@zi_mean s0 rho 0 0 0 0
           (3 / 10) (3 / 10) 1 (3 / 100) (3 / 100) (28 / 10) (11 / 10));
    try lra; try reflexivity.
  - exact first_radar_configured.
  - exact first_radar_x.
  - exact first_radar_P.
Qed.

Lemma first_radar_covariance :
  P_ s1 = diag [Fin (3 / 10 * (3 / 10)); Fin (3 / 10 * (3 / 10)); Fin (1 * 1);
                Fin (3 / 100 * (3 / 100)); Fin (3 / 100 * (3 / 100))].
Proof.
  apply (@zi_covariance s0 rho 0 0 0 0
           (3 / 10) (3 / 10) 1 (3 / 100) (3 / 100) (28 / 10) (11 / 10));
    try lra; try reflexivity.
  - exact first_radar_configured.
  - exact first_radar_x.
  - exact first_radar_P.
Qed.

Lemma first_radar_weights :
  weights_ s1 = Fin (-4 / 3) :: repeat (Fin (1 / 6)) 14.
Proof. apply set_weights_configured; reflexivity. Qed.

Lemma first_radar_Zsig :
  radar_Zsig s1
  = [[Fin rho; Fin 0; Fin 0];
     [Fin (rho + q * (3 / 10)); Fin 0; Fin 0];
     [Fin c; Fin phi; Fin 0];
     [Fin rho; Fin 0; Fin q];
     [Fin rho; Fin 0; Fin 0];
     [Fin rho; Fin 0; Fin 0];
     [Fin rho; Fin 0; Fin 0];
     [Fin rho; Fin 0; Fin 0];
     [Fin (rho - q * (3 / 10)); Fin 0; Fin 0];
     [Fin c; Fin (- phi); Fin 0];
     [Fin rho; Fin 0; Fin (- q)];
     [Fin rho; Fin 0; Fin 0];
     [Fin rho; Fin 0; Fin 0];
     [Fin rho; Fin 0; Fin 0];
     [Fin rho; Fin 0; Fin 0]].
Proof.
  destruct spread_facts as [Hq0 [Hq2 Hq3]].
  destruct side_range_facts as [Hc1 Hc2].
  unfold radar_Zsig. rewrite first_radar_points.
  change (n_sig_ s1) with 15%nat. cbn [seq map col nth].
  rewrite !radar_model_ahead by nra.
  assert (A : sqrt (rho * rho + 0 * 0) = rho) by (apply sqrt_lem_1; nra).
  assert (B1 : sqrt ((rho + q * (3 / 10)) * (rho + q * (3 / 10)) + 0 * 0)
               = rho + q * (3 / 10)) by (apply sqrt_lem_1; nra).
  assert (B2 : sqrt ((rho - q * (3 / 10)) * (rho - q * (3 / 10)) + 0 * 0)
               = rho - q * (3 / 10)) by (apply sqrt_lem_1; nra).
  assert (C1 : sqrt (rho * rho + (0 + q * (3 / 10)) * (0 + q * (3 / 10))) = c)
    by (apply sqrt_lem_1; nra).
  assert (C2 : sqrt (rho * rho + (0 - q * (3 / 10)) * (0 - q * (3 / 10))) = c)
    by (apply sqrt_lem_1; nra).
  rewrite A, B1, B2, C1, C2.
  assert (T0 : atan (0 / rho) = 0)
    by (replace (0 / rho) with 0 by (field; lra); apply atan_0).
  assert (T1 : atan (0 / (rho + q * (3 / 10))) = 0)
    by (replace (0 / (rho + q * (3 / 10))) with 0 by (field; nra);
        apply atan_0).
  assert (T2 : atan (0 / (rho - q * (3 / 10))) = 0)
    by (replace (0 / (rho - q * (3 / 10))) with 0 by (field; nra);
        apply atan_0).
  assert (T3 : atan ((0 + q * (3 / 10)) / rho) = phi)
    by (unfold side_bearing; f_equal; field; lra).
  assert (T4 : atan ((0 - q * (3 / 10)) / rho) = - phi).
  { unfold side_bearing. rewrite <- atan_opp. f_equal. field. lra. }
  rewrite T0, T1, T2, T3, T4.
  rewrite cos_0, sin_0.
  fin_list; try reflexivity; field; nra.
Qed.

Lemma first_radar_z_pred :
  radar_z_pred s1 = [Fin ((2 * rho + c) / 3); Fin 0; Fin 0].
Proof.
  unfold radar_z_pred, predicted_measurement.
  rewrite first_radar_Zsig, first_radar_weights.
  change (n_sig_ s1) with 15%nat.
  cbn. fin_list; lra.
Qed.

Lemma first_radar_S :
  radar_S s1
  = map (map Fin)
        [[2 * ((rho - c) / 3 * ((rho - c) / 3)) + 18 / 100; 0; 0];
         [0; phi * phi / 3 + 9 / 10000; 0];
         [0; 0; 109 / 100]].
Proof.
  destruct spread_facts as [Hq0 [Hq2 Hq3]]. pose proof PI_gt_3 as Hpi.
  pose proof side_bearing_bound as Hb.
  unfold radar_S. rewrite first_radar_z_pred.
  unfold innovation_sum. rewrite first_radar_Zsig, first_radar_weights.
  change (n_sig_ s1) with 15%nat.
  unfold for_loop.
  cbn -[normalize_angle].
  rewrite !normalize_angle_fixed by lra.
  cbn. fin_list; nra.
Qed.

Lemma first_radar_residual :
  radar_residual s1 (radar_at rho t) = map Fin [(rho - c) / 3; 0; 0].
Proof.
  pose proof PI_gt_3 as Hpi.
  unfold radar_residual. rewrite first_radar_z_pred.
  cbn -[normalize_angle].
  rewrite normalize_angle_fixed by lra.
  fin_list; lra.
Qed.

Lemma first_radar_Tc :
  cross_correlation s1 (n_sig_ s1) 3 (Some 1%nat) (radar_Zsig s1)
                    (radar_z_pred s1)
  = map (map Fin) [[9 / 100; 0; 0]; [0; q * phi / 10; 0]; [0; 0; 1];
                   [0; 0; 0]; [0; 0; 0]].
Proof.
  destruct spread_facts as [Hq0 [Hq2 Hq3]]. pose proof PI_gt_3 as Hpi.
  pose proof side_bearing_bound as Hb.
  rewrite first_radar_z_pred.
  unfold cross_correlation.
  rewrite first_radar_Zsig, first_radar_weights, first_radar_points,
    first_radar_mean.
  change (n_sig_ s1) with 15%nat. change (n_x_ s1) with 5%nat.
  unfold for_loop.
  cbn -[normalize_angle].
  rewrite !normalize_angle_fixed by nra.
  cbn. fin_list; nra.
Qed.


Local Abbreviation Srr := (2 * ((rho - c) / 3 * ((rho - c) / 3)) + 18 / 100).
Local Abbreviation Spp := (phi * phi / 3 + 9 / 10000).

Lemma first_radar_S_nonzero : Srr <> 0 /\ Spp <> 0.
Proof.
  pose proof (Rle_0_sqr ((rho - c) / 3)) as H1.
  pose proof (Rle_0_sqr phi) as H2. unfold Rsqr in *.
  split; apply Rgt_not_eq; lra.
Qed.

Lemma first_radar_gain :
  mmul (cross_correlation s1 (n_sig_ s1) 3 (Some 1%nat) (radar_Zsig s1)
          (radar_z_pred s1))
       (inverse (radar_S s1))
  = map (map Fin) [[9 / 100 / Srr; 0; 0]; [0; q * phi / 10 / Spp; 0];
                   [0; 0; 100 / 109]; [0; 0; 0]; [0; 0; 0]].
Proof.
  destruct first_radar_S_nonzero as [H1 H2].
  rewrite first_radar_Tc, first_radar_S, inverse_diag3 by (assumption || lra).
  cbn. fin_list; field; repeat split; (assumption || lra).
Qed.

Lemma first_radar_call :
  let s := ProcessMeasurement fresh (radar_at rho t) in
  x_ s = [Fin (rho + 9 / 100 / Srr * ((rho - c) / 3)); Fin 0; Fin 0; Fin 0;
          Fin 0]
  /\ P_ s = diag [Fin (9 / 100 - 9 / 100 * (9 / 100) / Srr);
                  Fin (9 / 100 - q * phi / 10 * (q * phi / 10) / Spp);
                  Fin (9 / 109); Fin (9 / 10000); Fin (9 / 10000)]
  /\ nis_radar_ s = [Fin ((rho - c) / 3 * ((rho - c) / 3) / Srr)].
Proof.
  cbv zeta. rewrite (first_call fresh (radar_at rho t) eq_refl).
  cbv zeta. change (sensor_type_ (radar_at rho t)) with RADAR. cbv iota.
  destruct first_radar_S_nonzero as [H1 H2].
  split; [|split].
  - rewrite UpdateRadar_x_, first_radar_gain, first_radar_residual,
      first_radar_mean.
    cbn. fin_list; ring.
  - rewrite UpdateRadar_P_, first_radar_gain, first_radar_S. cbv zeta.
    rewrite first_radar_covariance. cbn.
    fin_list; field; repeat split; (assumption || lra).
  - rewrite UpdateRadar_nis_radar, first_radar_residual, first_radar_S.
    unfold nis. rewrite inverse_diag3 by (assumption || lra).
    cbn. fin_list. field. repeat split; (assumption || lra).
Qed.

(** On return from the first call the estimated px is below the
    measured range. *)
Lemma first_radar_call_px :
  exists p,
    x_ (ProcessMeasurement fresh (radar_at rho t))
    = [Fin p; Fin 0; Fin 0; Fin 0; Fin 0]
    /\ p < rho.
Proof.
  destruct first_radar_call as [Hx _]. eexists. split; [exact Hx|].
  destruct side_range_facts as [Hc _].
  pose proof (Rle_0_sqr ((rho - c) / 3)) as Hs. unfold Rsqr in Hs.
  assert (Hk : 0 < 9 / 100 / Srr) by (apply Rdiv_lt_0_compat; lra).
  assert (Hd : (rho - c) / 3 < 0) by lra.
  nra.
Qed.

End FirstRadar.

(** C1 as stated fails: the first call on a fresh estimator with the
    LASER measurement (1, 2) does more than initialise.  It goes on to
    the prediction and to the lidar update, and returns with one entry in
    the lidar NIS history, where the initialisation alone leaves the
    history empty. *)
Lemma first_call_does_not_return_early :
  ProcessMeasurement fresh first_laser
  = UpdateLidar (Prediction (initialize fresh first_laser) (Fin 0)) first_laser
  /\ (exists a, nis_laser_ (ProcessMeasurement fresh first_laser) = [a])
  /\ nis_laser_ (initialize fresh first_laser) = []
  /\ ProcessMeasurement fresh first_laser <> initialize fresh first_laser.
Proof.
  destruct (ProcessMeasurement_nis_laser fresh first_laser) as [a Ha].
  cbn [nis_laser_ fresh UKF_new app is_type first_laser sensor_type_] in Ha.
  split; [exact (first_call fresh first_laser eq_refl)|].
  split; [exists a; exact Ha|]. split; [reflexivity|].
  intros E. rewrite E in Ha. discriminate Ha.
Qed.

(** The two updates of C5 at states the estimator reaches: the lidar
    update of a first LASER measurement at (1, 2) and the radar update of
    a first RADAR measurement at range 1.3 straight ahead. *)
Lemma nis_nonnegative_for_positive_definite_S_witness :
  (exists q,
      nis_laser_ (UpdateLidar
                    (Prediction (initialize fresh first_laser) (Fin 0))
                    first_laser)
      = nis_laser_ (Prediction (initialize fresh first_laser) (Fin 0))
        ++ [Fin q]
      /\ 0 <= q)
  /\ (exists q,
         nis_radar_ (UpdateRadar
                       (Prediction
                          (initialize fresh (radar_at (13 / 10) 1000000))
                          (Fin 0))
                       (radar_at (13 / 10) 1000000))
         = nis_radar_ (Prediction
                         (initialize fresh (radar_at (13 / 10) 1000000))
                         (Fin 0))
           ++ [Fin q]
         /\ 0 <= q).
Proof.
  split.
  - destruct (first_laser_call 1 2 1000000) as [_ [_ [_ [HS Hr]]]].
    apply (proj1 (nis_nonnegative_for_positive_definite_S
                    (Prediction (initialize fresh first_laser) (Fin 0))
                    first_laser)
             [[15 / 100 * (15 / 100) + 15 / 100 * (15 / 100); 0];
              [0; 15 / 100 * (15 / 100) + 15 / 100 * (15 / 100)]]
             [1 - 1; 2 - 2]).
    + exact HS.
    + apply positive_definite_diag2; lra.
    + exact Hr.
  - assert (Hrho : 11 / 10 <= 13 / 10) by lra.
    destruct (@first_radar_S_nonzero (13 / 10)) as [H1 H2].
    pose proof (Rle_0_sqr ((13 / 10 - side_range (13 / 10)) / 3)) as Q1.
    pose proof (Rle_0_sqr (side_bearing (13 / 10))) as Q2.
    unfold Rsqr in Q1, Q2.
    apply (proj2 (nis_nonnegative_for_positive_definite_S
                    (Prediction
                       (initialize fresh (radar_at (13 / 10) 1000000))
                       (Fin 0))
                    (radar_at (13 / 10) 1000000))
             [[2 * ((13 / 10 - side_range (13 / 10)) / 3
                    * ((13 / 10 - side_range (13 / 10)) / 3)) + 18 / 100;
               0; 0];
              [0; side_bearing (13 / 10) * side_bearing (13 / 10) / 3
                  + 9 / 10000; 0];
              [0; 0; 109 / 100]]
             [(13 / 10 - side_range (13 / 10)) / 3; 0; 0]).
    + exact (first_radar_S 1000000 Hrho).
    + apply positive_definite_diag3; lra.
    + exact (first_radar_residual 1000000 Hrho).
Defined.

(** * Further properties of the code *)

(** ** What the constructor fixes *)

Lemma configured_UKF_new junk t0 : configured (UKF_new junk t0).
Proof. now constructor. Qed.

Lemma parameters_ProcessMeasurement s m :
  let s' := ProcessMeasurement s m in
  use_laser_ s' = use_laser_ s /\ use_radar_ s' = use_radar_ s
  /\ std_a_ s' = std_a_ s /\ std_yawdd_ s' = std_yawdd_ s
  /\ std_laspx_ s' = std_laspx_ s /\ std_laspy_ s' = std_laspy_ s
  /\ std_radr_ s' = std_radr_ s /\ std_radphi_ s' = std_radphi_ s
  /\ std_radrd_ s' = std_radrd_ s.
Proof.
  unfold ProcessMeasurement, predict_and_update, initialize.
  destruct (is_initialized_ s), (sensor_type_ m);
    repeat split; reflexivity.
Qed.

Lemma parameters_process_all ms : forall s,
  let s' := process_all s ms in
  use_laser_ s' = use_laser_ s /\ use_radar_ s' = use_radar_ s
  /\ std_a_ s' = std_a_ s /\ std_yawdd_ s' = std_yawdd_ s
  /\ std_laspx_ s' = std_laspx_ s /\ std_laspy_ s' = std_laspy_ s
  /\ std_radr_ s' = std_radr_ s /\ std_radphi_ s' = std_radphi_ s
  /\ std_radrd_ s' = std_radrd_ s.
Proof.
  induction ms as [|m ms IH]; intros s; cbv zeta.
  - repeat split; reflexivity.
  - unfold process_all. cbn [fold_left]. fold (process_all (ProcessMeasurement s m) ms).
    specialize (IH (ProcessMeasurement s m)). cbv zeta in IH.
    pose proof (parameters_ProcessMeasurement s m) as H. cbv zeta in H.
    destruct IH as (I1 & I2 & I3 & I4 & I5 & I6 & I7 & I8 & I9).
    destruct H as (H1 & H2 & H3 & H4 & H5 & H6 & H7 & H8 & H9).
    repeat split; congruence.
Qed.

(** X1.  Whatever the memory of a new estimator holds where the
    constructor writes nothing, every sequence of measurements leaves the
    configuration as the constructor set it: the dimensions 5, 7 and 15,
    lambda_ = -4, the sizes of [weights_] and [Xsig_pred_], the two
    flags and the seven noise parameters. *)
Theorem configuration_is_never_changed
  (junk : nat -> double) (t0 : Z) (ms : list MeasurementPackage) :
  let s := process_all (UKF_new junk t0) ms in
  configured s
  /\ use_laser_ s = true /\ use_radar_ s = true
  /\ std_a_ s = Fin (28 / 10) /\ std_yawdd_ s = Fin (11 / 10)
  /\ std_laspx_ s = Fin (15 / 100) /\ std_laspy_ s = Fin (15 / 100)
  /\ std_radr_ s = Fin (3 / 10) /\ std_radphi_ s = Fin (3 / 100)
  /\ std_radrd_ s = Fin (3 / 10).
Proof.
  cbv zeta. split.
  - apply configured_process_all, configured_UKF_new.
  - exact (parameters_process_all ms (UKF_new junk t0)).
Qed.

(** ** The initialisation block runs once *)

Lemma ProcessMeasurement_flag_time s m :
  is_initialized_ (ProcessMeasurement s m) = true
  /\ time_us_ (ProcessMeasurement s m) = timestamp_ m.
Proof.
  unfold ProcessMeasurement, predict_and_update, initialize.
  destruct (is_initialized_ s) eqn:E, (sensor_type_ m);
    split; try reflexivity; exact E.
Qed.

Lemma predict_and_update_flag s m :
  is_initialized_ (predict_and_update s m) = is_initialized_ s.
Proof.
  unfold predict_and_update. destruct (sensor_type_ m); reflexivity.
Qed.

Lemma process_all_initialized ms : forall s,
  is_initialized_ s = true ->
  process_all s ms = fold_left predict_and_update ms s
  /\ is_initialized_ (process_all s ms) = true.
Proof.
  induction ms as [|m ms IH]; intros s Hs; [now split|].
  unfold process_all. cbn [fold_left]. fold (process_all (ProcessMeasurement s m) ms).
  assert (E : ProcessMeasurement s m = predict_and_update s m)
    by (unfold ProcessMeasurement; rewrite Hs; reflexivity).
  rewrite E. apply IH. now rewrite predict_and_update_flag.
Qed.

(** X2.  After any non-empty sequence of measurements the estimator is
    initialised and [time_us_] is the timestamp of the last measurement,
    whether or not it is later than the one before.  The initialisation
    block can run in the first call only: every later call is the
    prediction and the update alone. *)
Theorem initialization_runs_in_first_call_only
  (s : UKF) (m : MeasurementPackage) (ms : list MeasurementPackage) :
  is_initialized_ (process_all s (m :: ms)) = true
  /\ time_us_ (process_all s (ms ++ [m])) = timestamp_ m
  /\ process_all s (m :: ms)
     = fold_left predict_and_update ms (ProcessMeasurement s m).
Proof.
  destruct (ProcessMeasurement_flag_time s m) as [Hf _].
  destruct (process_all_initialized ms _ Hf) as [He Hi].
  split; [exact Hi|]. split; [|exact He].
  unfold process_all. rewrite fold_left_app. cbn [fold_left].
  apply ProcessMeasurement_flag_time.
Qed.

(** ** The flags [use_laser_] and [use_radar_] *)

Lemma Prediction_use_laser b s dt :
  Prediction (set_use_laser_ b s) dt = set_use_laser_ b (Prediction s dt).
Proof. reflexivity. Qed.

Lemma Prediction_use_radar b s dt :
  Prediction (set_use_radar_ b s) dt = set_use_radar_ b (Prediction s dt).
Proof. reflexivity. Qed.

Lemma UpdateLidar_use_laser b s m :
  UpdateLidar (set_use_laser_ b s) m = set_use_laser_ b (UpdateLidar s m).
Proof. reflexivity. Qed.

Lemma UpdateLidar_use_radar b s m :
  UpdateLidar (set_use_radar_ b s) m = set_use_radar_ b (UpdateLidar s m).
Proof. reflexivity. Qed.

Lemma UpdateRadar_use_laser b s m :
  UpdateRadar (set_use_laser_ b s) m = set_use_laser_ b (UpdateRadar s m).
Proof. reflexivity. Qed.

Lemma UpdateRadar_use_radar b s m :
  UpdateRadar (set_use_radar_ b s) m = set_use_radar_ b (UpdateRadar s m).
Proof. reflexivity. Qed.

Lemma initialize_use_laser b s m :
  initialize (set_use_laser_ b s) m = set_use_laser_ b (initialize s m).
Proof. unfold initialize. destruct (sensor_type_ m); reflexivity. Qed.

Lemma initialize_use_radar b s m :
  initialize (set_use_radar_ b s) m = set_use_radar_ b (initialize s m).
Proof. unfold initialize. destruct (sensor_type_ m); reflexivity. Qed.

Lemma predict_and_update_use_laser b s m :
  predict_and_update (set_use_laser_ b s) m
  = set_use_laser_ b (predict_and_update s m).
Proof.
  unfold predict_and_update.
  change (time_us_ (set_use_laser_ b s)) with (time_us_ s).
  change (set_time_us_ (timestamp_ m) (set_use_laser_ b s))
    with (set_use_laser_ b (set_time_us_ (timestamp_ m) s)).
  rewrite Prediction_use_laser.
  destruct (sensor_type_ m);
    [apply UpdateLidar_use_laser|apply UpdateRadar_use_laser|reflexivity].
Qed.

Lemma predict_and_update_use_radar b s m :
  predict_and_update (set_use_radar_ b s) m
  = set_use_radar_ b (predict_and_update s m).
Proof.
  unfold predict_and_update.
  change (time_us_ (set_use_radar_ b s)) with (time_us_ s).
  change (set_time_us_ (timestamp_ m) (set_use_radar_ b s))
    with (set_use_radar_ b (set_time_us_ (timestamp_ m) s)).
  rewrite Prediction_use_radar.
  destruct (sensor_type_ m);
    [apply UpdateLidar_use_radar|apply UpdateRadar_use_radar|reflexivity].
Qed.

Lemma ProcessMeasurement_use_laser b s m :
  ProcessMeasurement (set_use_laser_ b s) m
  = set_use_laser_ b (ProcessMeasurement s m).
Proof.
  unfold ProcessMeasurement.
  change (is_initialized_ (set_use_laser_ b s)) with (is_initialized_ s).
  destruct (is_initialized_ s); cbn [negb];
    [|rewrite initialize_use_laser]; apply predict_and_update_use_laser.
Qed.

Lemma ProcessMeasurement_use_radar b s m :
  ProcessMeasurement (set_use_radar_ b s) m
  = set_use_radar_ b (ProcessMeasurement s m).
Proof.
  unfold ProcessMeasurement.
  change (is_initialized_ (set_use_radar_ b s)) with (is_initialized_ s).
  destruct (is_initialized_ s); cbn [negb];
    [|rewrite initialize_use_radar]; apply predict_and_update_use_radar.
Qed.

(** X3.  The flags [use_laser_] and [use_radar_] are never read:
    clearing or setting one of them before a sequence of measurements
    changes nothing but the flag itself, so that a LASER or RADAR
    measurement is processed in full whatever its flag says. *)
Theorem sensor_flags_are_never_read
  (b : bool) (s : UKF) (ms : list MeasurementPackage) :
  process_all (set_use_laser_ b s) ms = set_use_laser_ b (process_all s ms)
  /\ process_all (set_use_radar_ b s) ms = set_use_radar_ b (process_all s ms).
Proof.
  revert s. induction ms as [|m ms IH]; intros s; [now split|].
  unfold process_all. cbn [fold_left].
  rewrite ProcessMeasurement_use_laser, ProcessMeasurement_use_radar.
  apply IH.
Qed.

(** ** The radar measurement model *)

Lemma sum_squares_zero a b : a * a + b * b = 0 -> a = 0 /\ b = 0.
Proof. intros H. split; nra. Qed.

(** X4.  On a finite sigma point the radar measurement model gives three
    finite values, with a positive range, unless the point is at
    px = py = 0; there the range and the bearing are 0 and the range
    rate is NaN.  So the position (0, 0) is the only one at which the
    unguarded division fails. *)
Theorem radar_model_fails_at_origin_only (p_x p_y v yaw yawd : R) :
  let z := radar_model [Fin p_x; Fin p_y; Fin v; Fin yaw; Fin yawd] in
  (p_x = 0 /\ p_y = 0 -> z = [Fin 0; Fin 0; NaN])
  /\ (~ (p_x = 0 /\ p_y = 0) ->
      exists rho phi rho_dot,
        z = [Fin rho; Fin phi; Fin rho_dot] /\ 0 < rho
        /\ rho * rho = p_x * p_x + p_y * p_y
        /\ rho * rho_dot = p_x * (cos yaw * v) + p_y * (sin yaw * v)).
Proof.
  cbv zeta. unfold radar_model. cbn [coeff nth].
  cbn [Dbl.cos Dbl.sin Dbl.lift1 Dbl.mul Dbl.add Dbl.lift2 Dbl.atan2].
  assert (Hn : 0 <= p_x * p_x + p_y * p_y) by nra.
  rewrite (sqrt_Fin Hn).
  split.
  - intros [-> ->]. replace (0 * 0 + 0 * 0) with 0 by ring.
    rewrite sqrt_0, div_zero.
    unfold Dbl.Ratan2. real_tests. reflexivity.
  - intros Hne.
    assert (Hp : 0 < p_x * p_x + p_y * p_y).
    { destruct (Req_dec (p_x * p_x + p_y * p_y) 0) as [E|E]; [|lra].
      exfalso. apply Hne. apply sum_squares_zero. exact E. }
    assert (Hs : 0 < sqrt (p_x * p_x + p_y * p_y)) by (apply sqrt_lt_R0; exact Hp).
    rewrite div_Fin by lra.
    eexists. eexists. eexists. split; [reflexivity|].
    split; [exact Hs|]. split.
    + apply sqrt_sqrt. exact Hn.
    + field. lra.
Qed.

Lemma radar_model_fails_at_origin_only_witness :
  radar_model [Fin 0; Fin 0; Fin 1; Fin 0; Fin 0] = [Fin 0; Fin 0; NaN]
  /\ exists rho phi rho_dot,
      radar_model [Fin 3; Fin 4; Fin 1; Fin 0; Fin 0]
      = [Fin rho; Fin phi; Fin rho_dot] /\ 0 < rho.
Proof.
  split.
  - apply (proj1 (radar_model_fails_at_origin_only 0 0 1 0 0)).
    split; reflexivity.
  - destruct (proj2 (radar_model_fails_at_origin_only 3 4 1 0 0))
      as [rho [phi [rd [H [Hr _]]]]].
    + intros [H _]. lra.
    + exists rho, phi, rd. split; assumption.
Defined.

(** ** Initialisation from a radar measurement *)

Lemma initialize_radar_x s t rho phi rhodot :
  x_ (initialize s (mkMeas RADAR t [Fin rho; Fin phi; Fin rhodot]))
  = [Fin (rho * cos phi); Fin (rho * sin phi); Fin (Rabs rhodot);
     Fin 0; Fin 0].
Proof.
  unfold initialize. cbn [sensor_type_ raw_measurements_ coeff nth].
  cbn [x_ set_x_ set_P_ set_time_us_ set_is_initialized_].
  cbn [Dbl.cos Dbl.sin Dbl.lift1 Dbl.mul Dbl.add Dbl.lift2].
  assert (E : rhodot * cos phi * (rhodot * cos phi)
              + rhodot * sin phi * (rhodot * sin phi) = Rsqr rhodot).
  { pose proof (sin2_cos2 phi) as H. unfold Rsqr in *.
    replace (rhodot * rhodot)
      with (rhodot * rhodot * (sin phi * sin phi + cos phi * cos phi))
      by (rewrite H; ring).
    ring. }
  rewrite E, sqrt_Fin by apply Rle_0_sqr.
  rewrite sqrt_Rsqr_abs. reflexivity.
Qed.

(** X5.  The initialisation from a RADAR measurement (rho, phi, rhodot)
    puts the position at (rho cos phi, rho sin phi) and the speed at
    |rhodot|: the sign of the range rate is lost.  For a positive range
    and a bearing inside (-pi/2, pi/2), the radar measurement model maps
    that state back to the range rho and the bearing phi, and to the
    range rate |rhodot| cos phi. *)
Theorem radar_initialization_round_trip
  (s : UKF) (t : Z) (rho phi rhodot : R) :
  let m := mkMeas RADAR t [Fin rho; Fin phi; Fin rhodot] in
  x_ (initialize s m)
  = [Fin (rho * cos phi); Fin (rho * sin phi); Fin (Rabs rhodot);
     Fin 0; Fin 0]
  /\ (0 < rho -> - PI / 2 < phi < PI / 2 ->
      radar_model (x_ (initialize s m))
      = [Fin rho; Fin phi; Fin (Rabs rhodot * cos phi)]).
Proof.
  cbv zeta. split; [apply initialize_radar_x|].
  intros Hrho Hphi. rewrite initialize_radar_x.
  assert (Hc : 0 < cos phi) by (apply cos_gt_0; lra).
  assert (Hx : 0 < rho * cos phi) by (apply Rmult_lt_0_compat; assumption).
  rewrite (radar_model_ahead _ _ _ _ Hx).
  assert (E : rho * cos phi * (rho * cos phi) + rho * sin phi * (rho * sin phi)
              = Rsqr rho).
  { pose proof (sin2_cos2 phi) as H. unfold Rsqr in *.
    replace (rho * rho)
      with (rho * rho * (sin phi * sin phi + cos phi * cos phi))
      by (rewrite H; ring).
    ring. }
  rewrite E, sqrt_Rsqr by lra.
  replace (rho * sin phi / (rho * cos phi)) with (tan phi)
    by (unfold tan; field; lra).
  rewrite atan_tan by lra.
  rewrite cos_0, sin_0.
  fin_list; try reflexivity. field. lra.
Qed.

Lemma radar_initialization_round_trip_witness :
  radar_model (x_ (initialize fresh (mkMeas RADAR 0 [Fin 5; Fin 0; Fin (-1)])))
  = [Fin 5; Fin 0; Fin (Rabs (-1) * cos 0)].
Proof.
  apply (proj2 (radar_initialization_round_trip fresh 0 5 0 (-1))).
  - lra.
  - pose proof PI_RGT_0. lra.
Defined.

(** ** [printNIS] after a sequence of measurements *)

Lemma printNIS_defined_iff s :
  printNIS s <> None
  <-> (length (nis_radar_ s) <= length (nis_laser_ s))%nat.
Proof.
  unfold printNIS. split.
  - intros Hs.
    destruct (length (nis_radar_ s)) as [|n] eqn:En; [lia|].
    destruct (@printNIS_rows_reads _ _ _ Hs n) as [_ Hl]; [|lia].
    apply in_seq. lia.
  - intros Hle. rewrite printNIS_rows_in_bounds; [discriminate|].
    intros i Hi. apply in_seq in Hi. lia.
Qed.



(** ** The sizes of the belief *)

Lemma msub_shape r c A B : shape r c A -> shape r c B -> shape r c (msub A B).
Proof.
  intros [HA1 HA2] [HB1 HB2]. unfold shape, msub.
  split; [rewrite map2_length by sizes; exact HA1|].
  clear HA1 HB1. revert B HB2.
  induction HA2 as [|x A Hx HA IH]; intros B HB; [constructor|].
  destruct HB as [|y B Hy HB]; [constructor|].
  cbn. constructor; [|now apply IH].
  unfold vsub. rewrite map2_length by sizes. exact Hx.
Qed.

Lemma mmul_shape A B : shape (length A) (ncols B) (mmul A B).
Proof.
  unfold shape, mmul. rewrite length_map. split; [reflexivity|].
  apply Forall_map, Forall_forall. intros r _. apply vmmul_length.
Qed.

Lemma mmul_length A B : length (mmul A B) = length A.
Proof. apply length_map. Qed.

Lemma ncols_shape r c M : shape (S r) c M -> ncols M = c.
Proof.
  intros [Hl Hf]. unfold ncols. destruct M as [|h M]; [discriminate|].
  cbn. now inversion Hf.
Qed.

Lemma ncols_transpose M : (0 < ncols M)%nat -> ncols (transpose M) = length M.
Proof.
  intros H. unfold transpose. destruct (ncols M) as [|n]; [lia|].
  unfold ncols. cbn. unfold mcol. apply length_map.
Qed.

(** The size of [K * z_diff] and of [K * S * K.transpose()] for the gain
    [K = Tc * S.inverse()]. *)
Lemma gain_update_shape n_z Tc S z :
  shape 5 (Datatypes.S n_z) Tc -> length S = Datatypes.S n_z ->
  length (mvmul (mmul Tc (inverse S)) z) = 5%nat
  /\ shape 5 5 (mmul (mmul (mmul Tc (inverse S)) S)
                     (transpose (mmul Tc (inverse S)))).
Proof.
  intros HT HS.
  pose proof (mmul_shape Tc (inverse S)) as HK.
  rewrite (proj1 HT), ncols_inverse, HS in HK.
  set (K := mmul Tc (inverse S)) in *.
  split.
  - unfold mvmul. rewrite length_map. exact (proj1 HK).
  - pose proof (mmul_shape (mmul K S) (transpose K)) as H.
    rewrite mmul_length, (proj1 HK) in H.
    rewrite ncols_transpose, (proj1 HK) in H; [exact H|].
    rewrite (ncols_shape HK). lia.
Qed.

Lemma dimensioned_UKF_new junk t0 : dimensioned (UKF_new junk t0).
Proof.
  constructor.
  - reflexivity.
  - split; [reflexivity|]. repeat constructor.
  - intros k Hk. do 15 (destruct k as [|k]; [reflexivity|]). lia.
Qed.

Lemma diag5_shape a b c d e : shape 5 5 (diag [a; b; c; d; e]).
Proof. split; [reflexivity|]. repeat constructor. Qed.

Lemma dimensioned_initialize s m : dimensioned s -> dimensioned (initialize s m).
Proof.
  intros [Hx HP HX]. unfold initialize.
  destruct (sensor_type_ m); constructor; try assumption;
    try reflexivity; apply diag5_shape.
Qed.

Lemma Prediction_col_length s dt k :
  configured s -> (k < 15)%nat ->
  length (col (Xsig_pred_ (Prediction s dt)) k) = 5%nat.
Proof.
  intros Hc Hk. destruct Hc as [_ _ Hns _ _ HX].
  rewrite Prediction_col by (rewrite ?Hns, ?HX; lia).
  apply ctrv_length.
Qed.

Lemma normalize_at_length k v : length (normalize_at k v) = length v.
Proof. apply set_coeff_length. Qed.

Lemma predicted_covariance_shape n w X x P0 :
  (forall k, (k < n)%nat -> length (col X k) = 5%nat) ->
  length x = 5%nat -> shape 5 5 P0 ->
  shape 5 5 (predicted_covariance n w X x P0).
Proof.
  intros HX Hx HP. unfold predicted_covariance, for_loop.
  apply (fold_madd_shape
           (fun i => outer (vscale (coeff w i) (normalize_at 3 (vsub (col X i) x)))
                           (normalize_at 3 (vsub (col X i) x))));
    [exact HP|].
  intros k Hk. apply in_seq in Hk.
  assert (E : length (normalize_at 3 (vsub (col X k) x)) = 5%nat).
  { rewrite normalize_at_length. unfold vsub.
    rewrite map2_length; rewrite HX by lia; [reflexivity|sizes]. }
  pose proof (outer_shape
                (vscale (coeff w k) (normalize_at 3 (vsub (col X k) x)))
                (normalize_at 3 (vsub (col X k) x))) as Ho.
  unfold vscale in Ho at 1. rewrite length_map, E in Ho. exact Ho.
Qed.

Lemma zero_matrix_shape r c (M : MatrixXd) :
  shape r c M -> shape r c (map (map (fun _ => Fin 0)) M).
Proof.
  intros [Hl Hf]. split; [now rewrite length_map|].
  apply Forall_map. revert Hf. apply Forall_impl.
  intros a Ha. now rewrite length_map.
Qed.

Lemma dimensioned_Prediction s dt :
  configured s -> dimensioned s -> dimensioned (Prediction s dt).
Proof.
  intros Hc [Hx HP HX].
  assert (Hcol : forall k, (k < 15)%nat ->
                   length (col (Xsig_pred_ (Prediction s dt)) k) = 5%nat)
    by (intros k Hk; now apply Prediction_col_length).
  assert (Hns : n_sig_ s = 15%nat) by (now destruct Hc).
  assert (Hm : length (x_ (Prediction s dt)) = 5%nat).
  { rewrite Prediction_x_, weighted_mean_length; rewrite length_map;
      [exact Hx|].
    intros k Hk. rewrite Hx. apply Hcol. lia. }
  constructor; [exact Hm| |exact Hcol].
  rewrite Prediction_P_. apply predicted_covariance_shape.
  - intros k Hk. apply Hcol. lia.
  - exact Hm.
  - now apply zero_matrix_shape.
Qed.

Lemma lidar_Tc_shape s :
  configured s -> dimensioned s ->
  shape 5 2 (cross_correlation s (2 * n_aug_ s + 1) 2 None (lidar_Zsig s)
                               (lidar_z_pred s)).
Proof.
  intros [Hnx Hna Hns _ _ _] [Hx _ HX].
  rewrite <- Hnx at 1. apply cross_correlation_shape.
  - intros k Hk. rewrite lidar_Zsig_col by lia. reflexivity.
  - apply lidar_z_pred_length.
  - intros k Hk. rewrite Hnx. apply HX. lia.
  - now rewrite Hnx.
Qed.

Lemma radar_Tc_shape s :
  configured s -> dimensioned s ->
  shape 5 3 (cross_correlation s (n_sig_ s) 3 (Some 1%nat) (radar_Zsig s)
                               (radar_z_pred s)).
Proof.
  intros [Hnx Hna Hns _ _ _] [Hx _ HX].
  rewrite <- Hnx at 1. apply cross_correlation_shape.
  - intros k Hk. rewrite radar_Zsig_col by lia. reflexivity.
  - apply radar_z_pred_length.
  - intros k Hk. rewrite Hnx. apply HX. lia.
  - now rewrite Hnx.
Qed.

Lemma dimensioned_UpdateLidar s m :
  configured s -> dimensioned s -> dimensioned (UpdateLidar s m).
Proof.
  intros Hc Hd.
  destruct (@gain_update_shape 1 _ (lidar_S s) (lidar_residual s m)
              (lidar_Tc_shape Hc Hd) (proj1 (lidar_S_shape s))) as [Hk HK].
  destruct Hd as [Hx HP HX].
  constructor; [| |exact HX].
  - rewrite UpdateLidar_x_. unfold vadd. rewrite map2_length; [exact Hx|].
    rewrite Hx. symmetry. exact Hk.
  - rewrite UpdateLidar_P_. cbv zeta. apply msub_shape; assumption.
Qed.

Lemma dimensioned_UpdateRadar s m :
  configured s -> dimensioned s -> dimensioned (UpdateRadar s m).
Proof.
  intros Hc Hd.
  destruct (@gain_update_shape 2 _ (radar_S s) (radar_residual s m)
              (radar_Tc_shape Hc Hd) (proj1 (radar_S_shape s))) as [Hk HK].
  destruct Hd as [Hx HP HX].
  constructor; [| |exact HX].
  - rewrite UpdateRadar_x_. unfold vadd. rewrite map2_length; [exact Hx|].
    rewrite Hx. symmetry. exact Hk.
  - rewrite UpdateRadar_P_. cbv zeta. apply msub_shape; assumption.
Qed.

Lemma configured_set_time_us_ t s : configured s -> configured (set_time_us_ t s).
Proof. intros []. now constructor. Qed.

Lemma dimensioned_set_time_us_ t s :
  dimensioned s -> dimensioned (set_time_us_ t s).
Proof. intros []. now constructor. Qed.

Lemma dimensioned_predict_and_update s m :
  configured s -> dimensioned s -> dimensioned (predict_and_update s m).
Proof.
  intros Hc Hd. unfold predict_and_update.
  set (dt := (Dbl.of_int (timestamp_ m - time_us_ s) / Fin 1000000)%D).
  assert (Hc1 : configured (Prediction (set_time_us_ (timestamp_ m) s) dt))
    by now apply configured_Prediction, configured_set_time_us_.
  assert (Hd1 : dimensioned (Prediction (set_time_us_ (timestamp_ m) s) dt))
    by (apply dimensioned_Prediction;
        [now apply configured_set_time_us_|now apply dimensioned_set_time_us_]).
  destruct (sensor_type_ m);
    [now apply dimensioned_UpdateLidar|now apply dimensioned_UpdateRadar
    |exact Hd1].
Qed.

Lemma dimensioned_ProcessMeasurement s m :
  configured s -> dimensioned s -> dimensioned (ProcessMeasurement s m).
Proof.
  intros Hc Hd. unfold ProcessMeasurement.
  destruct (negb (is_initialized_ s)).
  - apply dimensioned_predict_and_update;
      [now apply configured_initialize|now apply dimensioned_initialize].
  - now apply dimensioned_predict_and_update.
Qed.

(** X7.  Whatever a new estimator holds and whatever measurements it
    is given, the sizes never change: [x_] keeps its 5 entries, [P_]
    stays 5 x 5 and every column of [Xsig_pred_] has 5 entries, so that
    each sum, difference and product of the prediction and of the two
    updates is taken between operands of matching sizes. *)
Theorem belief_dimensions_are_kept
  (junk : nat -> double) (t0 : Z) (ms : list MeasurementPackage) :
  dimensioned (process_all (UKF_new junk t0) ms).
Proof.
  assert (H : forall s, configured s -> dimensioned s ->
                        dimensioned (process_all s ms)).
  { induction ms as [|m ms IH]; intros s Hc Hd; [exact Hd|].
    unfold process_all. cbn [fold_left]. apply IH.
    - now apply configured_ProcessMeasurement.
    - now apply dimensioned_ProcessMeasurement. }
  apply H; [apply configured_UKF_new|apply dimensioned_UKF_new].
Qed.

(** ** A state of NaN is never left *)

Lemma vadd_NaN_l n : forall b : VectorXd,
  length b = n -> vadd (repeat NaN n) b = repeat NaN n.
Proof.
  induction n as [|n IH]; intros [|y b] H; cbn in *; try discriminate;
    [reflexivity|].
  f_equal. apply IH. now injection H.
Qed.

Lemma all_coeff_NaN (v : VectorXd) :
  length v = 5%nat -> (forall j, (j < 5)%nat -> coeff v j = NaN) ->
  v = repeat NaN 5.
Proof.
  intros Hl H.
  destruct v as [|a0 [|a1 [|a2 [|a3 [|a4 [|? ?]]]]]]; try discriminate Hl.
  pose proof (H 0%nat ltac:(lia)) as H0. pose proof (H 1%nat ltac:(lia)) as H1.
  pose proof (H 2%nat ltac:(lia)) as H2. pose proof (H 3%nat ltac:(lia)) as H3.
  pose proof (H 4%nat ltac:(lia)) as H4.
  cbn in H0, H1, H2, H3, H4. now subst.
Qed.

Lemma ctrv_NaN c dt :
  coeff c 0 = NaN -> coeff c 1 = NaN -> coeff c 2 = NaN -> coeff c 3 = NaN ->
  coeff c 4 = NaN -> ctrv c dt = repeat NaN 5.
Proof.
  intros H0 H1 H2 H3 H4. unfold ctrv. rewrite H0, H1, H2, H3, H4.
  reflexivity.
Qed.

Lemma augmented_mean_NaN s :
  configured s -> x_ s = repeat NaN 5 ->
  augmented_mean s = [NaN; NaN; NaN; NaN; NaN; Fin 0; Fin 0].
Proof.
  intros [Hnx Hna _ _ _ _] Hx. unfold augmented_mean.
  rewrite Hnx, Hna, Hx. reflexivity.
Qed.

(** After a prediction from a NaN state the mean is NaN again, and so is
    the first predicted sigma point. *)
Lemma Prediction_NaN s dt :
  configured s -> x_ s = repeat NaN 5 ->
  x_ (Prediction s dt) = repeat NaN 5
  /\ col (Xsig_pred_ (Prediction s dt)) 0 = repeat NaN 5.
Proof.
  intros Hc Hx.
  assert (Hns : n_sig_ s = 15%nat) by now destruct Hc.
  assert (HX : length (Xsig_pred_ s) = 15%nat) by now destruct Hc.
  assert (H0 : col (Xsig_pred_ (Prediction s dt)) 0 = repeat NaN 5).
  { rewrite Prediction_col by (rewrite ?Hns, ?HX; lia).
    rewrite augmented_sigma_points_col0 by (rewrite Hns; lia).
    rewrite (augmented_mean_NaN Hc Hx). now apply ctrv_NaN. }
  split; [|exact H0].
  rewrite Prediction_x_, Hns.
  set (w := weights_ (Prediction s dt)).
  set (X := Xsig_pred_ (Prediction s dt)) in *.
  assert (Hz : length (map (fun _ : double => Fin 0) (x_ s)) = 5%nat)
    by (rewrite Hx; reflexivity).
  assert (Hlen : forall k, In k (seq 0 15) ->
            length (vscale (coeff w k) (col X k))
            = length (map (fun _ : double => Fin 0) (x_ s))).
  { intros k Hk. apply in_seq in Hk. unfold vscale.
    rewrite length_map, Hz. apply Prediction_col_length; [exact Hc|lia]. }
  apply all_coeff_NaN.
  - rewrite weighted_mean_length; [exact Hz|].
    intros k Hk. rewrite Hz. apply Prediction_col_length; [exact Hc|lia].
  - intros j Hj. unfold weighted_mean, for_loop.
    refine (proj2 (@fold_vadd_NaN (fun k => vscale (coeff w k) (col X k)) j
                                  (seq 0 15) _ Hlen _ _)).
    + rewrite Hz. exact Hj.
    + right. exists 0%nat. split; [apply in_seq; lia|].
      unfold vscale. rewrite coeff_map by (rewrite H0; exact Hj).
      rewrite H0.
      replace (coeff (repeat NaN 5) j) with NaN
        by (do 5 (destruct j as [|j]; [reflexivity|]); lia).
      apply mul_NaN_r.
Qed.

Lemma lidar_z_pred_NaN s :
  (0 < n_sig_ s)%nat -> coeff (col (Xsig_pred_ s) 0) 0 = NaN ->
  coeff (lidar_z_pred s) 0 = NaN.
Proof.
  intros Hi Hn. unfold lidar_z_pred, predicted_measurement, for_loop.
  refine (proj2 (@fold_vadd_NaN
           (fun k => vscale (coeff (weights_ s) k) (col (lidar_Zsig s) k))
           0 (seq 0 (n_sig_ s)) (fill 2 (Fin 0)) _ _ _)).
  - intros k Hk. apply in_seq in Hk. unfold vscale.
    rewrite length_map, lidar_Zsig_col by lia. reflexivity.
  - cbn. lia.
  - right. exists 0%nat. split; [apply in_seq; lia|].
    unfold vscale. rewrite lidar_Zsig_col by exact Hi.
    rewrite Hn. cbn. apply mul_NaN_r.
Qed.

Lemma lidar_nis_NaN s m :
  coeff (lidar_z_pred s) 0 = NaN -> nis (lidar_residual s m) (lidar_S s) = NaN.
Proof.
  intros Hn. pose proof (lidar_z_pred_length s) as Hl.
  pose proof (lidar_residual_length s m) as Hr.
  assert (H0 : coeff (lidar_residual s m) 0 = NaN).
  { unfold lidar_residual, lidar_z.
    destruct (lidar_z_pred s) as [|p0 [|p1 [|? ?]]]; try discriminate Hl.
    cbn in Hn. subst p0. cbn. apply sub_NaN_r. }
  unfold nis. apply dot_NaN with (j := 0%nat); [|sizes|exact H0].
  rewrite vmmul_length, ncols_inverse, (proj1 (lidar_S_shape s)). lia.
Qed.

Lemma radar_model_NaN c :
  coeff c 0 = NaN -> coeff (radar_model c) 2 = NaN.
Proof. intros H. unfold radar_model. rewrite H. reflexivity. Qed.

(** One measurement on an initialised estimator whose state is NaN. *)
Lemma predict_and_update_NaN s m :
  configured s -> dimensioned s -> x_ s = repeat NaN 5 ->
  let s' := predict_and_update s m in
  x_ s' = repeat NaN 5
  /\ nis_laser_ s' = nis_laser_ s ++ (if is_type LASER m then [NaN] else [])
  /\ nis_radar_ s' = nis_radar_ s ++ (if is_type RADAR m then [NaN] else []).
Proof.
  intros Hc Hd Hx. cbv zeta. unfold predict_and_update, is_type.
  set (dt := (Dbl.of_int (timestamp_ m - time_us_ s) / Fin 1000000)%D).
  set (s0 := set_time_us_ (timestamp_ m) s).
  assert (Hc0 : configured s0) by now apply configured_set_time_us_.
  assert (Hd0 : dimensioned s0) by now apply dimensioned_set_time_us_.
  assert (Hc1 : configured (Prediction s0 dt)) by now apply configured_Prediction.
  assert (Hd1 : dimensioned (Prediction s0 dt))
    by now apply dimensioned_Prediction.
  destruct (@Prediction_NaN s0 dt Hc0 Hx) as [Hx1 Hcol].
  assert (Hl : nis_laser_ (Prediction s0 dt) = nis_laser_ s) by reflexivity.
  assert (Hr : nis_radar_ (Prediction s0 dt) = nis_radar_ s) by reflexivity.
  assert (Hns : (0 < n_sig_ (Prediction s0 dt))%nat)
    by (destruct Hc1 as [_ _ E _ _ _]; rewrite E; lia).
  clearbody dt s0. revert Hc1 Hd1 Hx1 Hcol Hl Hr Hns.
  generalize (Prediction s0 dt). intros s1 Hc1 Hd1 Hx1 Hcol Hl Hr Hns.
  destruct (sensor_type_ m).
  - assert (Hz : coeff (lidar_z_pred s1) 0 = NaN)
      by (apply lidar_z_pred_NaN; [exact Hns|now rewrite Hcol]).
    destruct (@gain_update_shape 1 _ (lidar_S s1) (lidar_residual s1 m)
                (lidar_Tc_shape Hc1 Hd1) (proj1 (lidar_S_shape s1)))
      as [Hk _].
    split; [|split].
    + rewrite UpdateLidar_x_, Hx1. apply vadd_NaN_l. exact Hk.
    + rewrite UpdateLidar_nis_laser, (lidar_nis_NaN s1 m Hz), Hl.
      reflexivity.
    + rewrite UpdateLidar_nis_radar, Hr, app_nil_r. reflexivity.
  - assert (HZ : coeff (col (radar_Zsig s1) 0) 2 = NaN).
    { rewrite radar_Zsig_col by exact Hns. apply radar_model_NaN.
      now rewrite Hcol. }
    destruct (radar_z_pred_NaN s1 Hns HZ) as [_ Hp].
    destruct (radar_residual_NaN s1 m Hp) as [Hrl Hrn].
    destruct (@gain_update_shape 2 _ (radar_S s1) (radar_residual s1 m)
                (radar_Tc_shape Hc1 Hd1) (proj1 (radar_S_shape s1)))
      as [Hk _].
    split; [|split].
    + rewrite UpdateRadar_x_, Hx1. apply vadd_NaN_l. exact Hk.
    + rewrite UpdateRadar_nis_laser, Hl, app_nil_r. reflexivity.
    + rewrite UpdateRadar_nis_radar, Hr.
      rewrite (@nis_NaN _ _ Hrl Hrn (proj1 (radar_S_shape s1))). reflexivity.
  - rewrite Hl, Hr, !app_nil_r. now split.
Qed.

Lemma count_type_cons t m ms :
  count_type t (m :: ms)
  = ((if is_type t m then 1 else 0) + count_type t ms)%nat.
Proof. unfold count_type. cbn [filter]. now destruct (is_type t m). Qed.

(** X8.  Once an initialised estimator has a state whose five entries
    are NaN, no measurement brings it back: after any further sequence
    of measurements the state is still NaN in every entry, and every NIS
    value appended on the way is NaN. *)
Theorem NaN_state_is_never_left (s : UKF) (ms : list MeasurementPackage) :
  configured s -> dimensioned s -> is_initialized_ s = true ->
  x_ s = repeat NaN 5 ->
  x_ (process_all s ms) = repeat NaN 5
  /\ nis_laser_ (process_all s ms)
     = nis_laser_ s ++ repeat NaN (count_type LASER ms)
  /\ nis_radar_ (process_all s ms)
     = nis_radar_ s ++ repeat NaN (count_type RADAR ms).
Proof.
  revert s. induction ms as [|m ms IH]; intros s Hc Hd Hi Hx.
  - cbn. rewrite !app_nil_r. now split.
  - unfold process_all. cbn [fold_left].
    fold (process_all (ProcessMeasurement s m) ms).
    assert (E : ProcessMeasurement s m = predict_and_update s m)
      by (unfold ProcessMeasurement; rewrite Hi; reflexivity).
    destruct (predict_and_update_NaN m Hc Hd Hx) as [Hx1 [Hl1 Hr1]].
    assert (Hc1 : configured (predict_and_update s m))
      by (rewrite <- E; now apply configured_ProcessMeasurement).
    assert (Hd1 : dimensioned (predict_and_update s m))
      by now apply dimensioned_predict_and_update.
    assert (Hi1 : is_initialized_ (predict_and_update s m) = true)
      by now rewrite predict_and_update_flag.
    rewrite E. clear E.
    destruct (IH _ Hc1 Hd1 Hi1 Hx1) as [Hx2 [Hl2 Hr2]].
    split; [exact Hx2|]. rewrite Hl2, Hr2, Hl1, Hr1, !count_type_cons.
    split; rewrite <- app_assoc; f_equal;
      [destruct (is_type LASER m)|destruct (is_type RADAR m)]; reflexivity.
Qed.

Lemma NaN_state_is_never_left_witness :
  x_ (process_all (ProcessMeasurement fresh radar_at_origin)
                  [first_laser; first_radar])
  = repeat NaN 5.
Proof.
  apply (@NaN_state_is_never_left (ProcessMeasurement fresh radar_at_origin)
           [first_laser; first_radar]).
  - apply configured_ProcessMeasurement, configured_UKF_new.
  - apply dimensioned_ProcessMeasurement;
      [apply configured_UKF_new|apply dimensioned_UKF_new].
  - apply ProcessMeasurement_flag_time.
  - exact (proj2 first_radar_at_origin).
Defined.

(** ** The memory the constructor leaves unwritten *)

Lemma for_loop_set_col_15 (g : nat -> VectorXd) X :
  length X = 15%nat ->
  for_loop 15 (fun X i => set_col i (g i) X) X = map g (seq 0 15).
Proof.
  intros H. pose proof (for_loop_set_col_all g X) as E.
  rewrite H in E. exact E.
Qed.

Lemma Prediction_overwrites w X w' X' s dt :
  n_aug_ s = 7%nat -> n_sig_ s = 15%nat -> lambda_ s = Fin (-4) ->
  length w = 15%nat -> length w' = 15%nat ->
  length X = 15%nat -> length X' = 15%nat ->
  Prediction (set_weights_ w (set_Xsig_pred_ X s)) dt
  = Prediction (set_weights_ w' (set_Xsig_pred_ X' s)) dt.
Proof.
  intros Hna Hns Hl Hw Hw' HX HX'. unfold Prediction.
  change (augmented_sigma_points (set_weights_ w (set_Xsig_pred_ X s)))
    with (augmented_sigma_points s).
  change (augmented_sigma_points (set_weights_ w' (set_Xsig_pred_ X' s)))
    with (augmented_sigma_points s).
  rewrite (@set_weights_configured (set_weights_ w (set_Xsig_pred_ X s)))
    by assumption.
  rewrite (@set_weights_configured (set_weights_ w' (set_Xsig_pred_ X' s)))
    by assumption.
  cbn [n_sig_ Xsig_pred_ x_ P_ set_weights_ set_Xsig_pred_].
  rewrite Hns.
  rewrite (@for_loop_set_col_15
             (fun i => ctrv (col (augmented_sigma_points s) i) dt) X HX).
  rewrite (@for_loop_set_col_15
             (fun i => ctrv (col (augmented_sigma_points s) i) dt) X' HX').
  reflexivity.
Qed.

Lemma split_memory s :
  s = set_weights_ (weights_ s)
        (set_Xsig_pred_ (Xsig_pred_ s)
           (set_weights_ [] (set_Xsig_pred_ [] s))).
Proof. now destruct s. Qed.

Lemma initialize_overwrites junk t0 junk' t0' m :
  sensor_type_ m <> UNKNOWN ->
  set_weights_ [] (set_Xsig_pred_ [] (initialize (UKF_new junk t0) m))
  = set_weights_ [] (set_Xsig_pred_ [] (initialize (UKF_new junk' t0') m)).
Proof.
  intros Hm. unfold initialize.
  destruct (sensor_type_ m); [reflexivity|reflexivity|contradiction].
Qed.

(** X9.  When the first measurement is a LASER or a RADAR one, nothing
    of what the new estimator held in the memory that the constructor
    leaves unwritten ([x_], [P_], [weights_], [Xsig_pred_], [time_us_])
    is left after the call: the call overwrites all of it before it
    reads it. *)
Theorem first_call_overwrites_unwritten_memory
  (junk junk' : nat -> double) (t0 t0' : Z) (m : MeasurementPackage) :
  sensor_type_ m <> UNKNOWN ->
  ProcessMeasurement (UKF_new junk t0) m
  = ProcessMeasurement (UKF_new junk' t0') m.
Proof.
  intros Hm.
  rewrite (first_call (UKF_new junk t0) m eq_refl).
  rewrite (first_call (UKF_new junk' t0') m eq_refl). cbv zeta.
  pose proof (configured_initialize m (configured_UKF_new junk t0)) as Hc.
  pose proof (configured_initialize m (configured_UKF_new junk' t0')) as Hc'.
  pose proof (@initialize_overwrites junk t0 junk' t0' m Hm) as E.
  revert Hc Hc' E.
  generalize (initialize (UKF_new junk t0) m).
  generalize (initialize (UKF_new junk' t0') m).
  intros s' s [_ Hna Hns Hl Hw HX] [_ _ _ _ Hw' HX'] E.
  assert (EP : Prediction s (Fin 0) = Prediction s' (Fin 0)).
  { rewrite (split_memory s), (split_memory s'), E.
    apply Prediction_overwrites; try assumption.
    - rewrite <- E. exact Hna.
    - rewrite <- E. exact Hns.
    - rewrite <- E. exact Hl. }
  now rewrite EP.
Qed.

Lemma first_call_overwrites_unwritten_memory_witness :
  ProcessMeasurement (UKF_new (fun _ => NaN) 7) first_laser
  = ProcessMeasurement fresh first_laser.
Proof.
  apply first_call_overwrites_unwritten_memory. discriminate.
Defined.

(** ** The motion model over two intervals *)

Lemma ctrv_turning p_x p_y v yaw yawd delta_t :
  1 / 1000 < Rabs yawd ->
  ctrv [Fin p_x; Fin p_y; Fin v; Fin yaw; Fin yawd; Fin 0; Fin 0] (Fin delta_t)
  = [Fin (p_x + v / yawd * (sin (yaw + yawd * delta_t) - sin yaw));
     Fin (p_y + v / yawd * (cos yaw - cos (yaw + yawd * delta_t)));
     Fin v; Fin (yaw + yawd * delta_t); Fin yawd].
Proof.
  intros Hg.
  assert (Hz : yawd <> 0). { intros ->. rewrite Rabs_R0 in Hg. lra. }
  unfold ctrv. cbn [coeff nth Dbl.fabs Dbl.lift1].
  rewrite (gt_Fin_true Hg), (div_Fin v Hz). cbn.
  fin_list; ring.
Qed.

Lemma ctrv_straight p_x p_y v yaw yawd delta_t :
  Rabs yawd <= 1 / 1000 ->
  ctrv [Fin p_x; Fin p_y; Fin v; Fin yaw; Fin yawd; Fin 0; Fin 0] (Fin delta_t)
  = [Fin (p_x + v * delta_t * cos yaw); Fin (p_y + v * delta_t * sin yaw);
     Fin v; Fin (yaw + yawd * delta_t); Fin yawd].
Proof.
  intros Hg. unfold ctrv. cbn [coeff nth Dbl.fabs Dbl.lift1].
  rewrite (gt_Fin_false Hg). cbn. fin_list; ring.
Qed.

(** X10.  Without process noise, and when the guard holds or the yaw
    rate is 0, the motion model is additive in time: a step over a
    followed by a step over b is the step over a + b.  With b = -a, a
    step is undone by the step back. *)
Theorem ctrv_is_additive_in_time (p_x p_y v yaw yawd a b : R) :
  1 / 1000 < Rabs yawd \/ yawd = 0 ->
  ctrv (ctrv [Fin p_x; Fin p_y; Fin v; Fin yaw; Fin yawd; Fin 0; Fin 0]
             (Fin a)
        ++ [Fin 0; Fin 0]) (Fin b)
  = ctrv [Fin p_x; Fin p_y; Fin v; Fin yaw; Fin yawd; Fin 0; Fin 0]
         (Fin (a + b)).
Proof.
  intros [Hg | ->].
  - rewrite !(@ctrv_turning _ _ _ _ yawd _ Hg). cbn [app].
    rewrite (@ctrv_turning _ _ _ _ yawd _ Hg).
    replace (yaw + yawd * a + yawd * b) with (yaw + yawd * (a + b)) by ring.
    fin_list; try reflexivity; ring.
  - assert (H0 : Rabs 0 <= 1 / 1000) by (rewrite Rabs_R0; lra).
    rewrite !(@ctrv_straight _ _ _ _ 0 _ H0). cbn [app].
    rewrite (@ctrv_straight _ _ _ _ 0 _ H0).
    replace (yaw + 0 * a) with yaw by ring.
    fin_list; try reflexivity; ring.
Qed.

Lemma ctrv_is_additive_in_time_witness :
  ctrv (ctrv [Fin 0; Fin 0; Fin 1; Fin 0; Fin 2; Fin 0; Fin 0] (Fin 1)
        ++ [Fin 0; Fin 0]) (Fin (-1))
  = ctrv [Fin 0; Fin 0; Fin 1; Fin 0; Fin 2; Fin 0; Fin 0] (Fin (1 + -1)).
Proof.
  apply ctrv_is_additive_in_time. left.
  unfold Rabs. destruct (Rcase_abs 2); lra.
Defined.

(** ** The period of the angle normalisation *)

(** The result of the two loops together with the direction they ran
    in: the value -pi is only reached from below and the value pi only
    from above. *)
Lemma normalize_angle_direction r :
  exists v,
    normalize_angle (Fin r) = Fin v /\ - PI <= v <= PI
    /\ (exists k : Z, v = r + IZR k * (2 * PI))
    /\ (v = - PI -> r <= - PI) /\ (v = PI -> PI <= r).
Proof.
  pose proof PI_gt_3 as Hpi.
  pose proof (turns_enough r) as Ht.
  assert (Ha : r <= Rabs r /\ - Rabs r <= r).
  { unfold Rabs. destruct (Rcase_abs r); lra. }
  destruct (@wrap_down_steps (turns (Fin r)) r) as [k1 [E1 [H1 [L1 _]]]];
    [lra|].
  unfold normalize_angle.
  change (wrap_down (Fin r))
    with (iterate_while above_pi minus_two_pi (turns (Fin r)) (Fin r)).
  rewrite E1. set (r1 := r - 2 * PI * INR k1) in *.
  pose proof (turns_enough r1) as Ht1.
  assert (Ha1 : r1 <= Rabs r1 /\ - Rabs r1 <= r1).
  { unfold Rabs. destruct (Rcase_abs r1); lra. }
  destruct (@wrap_up_steps (turns (Fin r1)) r1) as [k2 [E2 [H2 [L2 _]]]];
    [lra|].
  change (wrap_up (Fin r1))
    with (iterate_while below_minus_pi plus_two_pi (turns (Fin r1)) (Fin r1)).
  rewrite E2. exists (r1 + 2 * PI * INR k2).
  pose proof (pos_INR k1) as P1. pose proof (pos_INR k2) as P2.
  assert (N1 : k1 <> O -> 1 <= INR k1)
    by (intros H; destruct k1; [congruence|rewrite S_INR; pose proof (pos_INR k1); lra]).
  assert (N2 : k2 <> O -> 1 <= INR k2)
    by (intros H; destruct k2; [congruence|rewrite S_INR; pose proof (pos_INR k2); lra]).
  assert (K2 : k2 = O \/ (k1 = O /\ r1 + 2 * PI * INR k2 < PI)).
  { destruct L2 as [->|L2]; [now left|].
    destruct (Nat.eq_dec k2 O) as [->|Hk2]; [now left|]. right.
    split; [|exact L2].
    destruct L1 as [->|L1]; [reflexivity|].
    exfalso. specialize (N2 Hk2). nra. }
  split; [reflexivity|]. split.
  - split; [exact H2|].
    destruct K2 as [->|[_ K2]]; [cbn; lra|lra].
  - split.
    + exists (Z.of_nat k2 - Z.of_nat k1)%Z.
      rewrite minus_IZR, <- !INR_IZR_INZ. unfold r1. ring.
    + split; intros Hv.
      * destruct L1 as [->|L1].
        -- unfold r1 in Hv. cbn in Hv. nra.
        -- destruct K2 as [->|[-> _]].
           ++ cbn in Hv. lra.
           ++ unfold r1 in Hv. cbn in Hv. nra.
      * destruct K2 as [->|[_ K2]]; [|lra].
        cbn in Hv. unfold r1 in Hv. nra.
Qed.

Lemma normalize_angle_shift (r : R) :
  normalize_angle (Fin (r + 2 * PI)) = normalize_angle (Fin r)
  \/ (normalize_angle (Fin r) = Fin (- PI)
      /\ normalize_angle (Fin (r + 2 * PI)) = Fin PI).
Proof.
  pose proof PI_gt_3 as Hpi.
  destruct (normalize_angle_direction r)
    as [v [E [Hv [[k Ek] [Lo Hi]]]]].
  destruct (normalize_angle_direction (r + 2 * PI))
    as [v' [E' [Hv' [[k' Ek'] [Lo' Hi']]]]].
  rewrite E, E'.
  assert (D : v' - v = IZR (1 + k' - k) * (2 * PI))
    by (rewrite minus_IZR, plus_IZR; lra).
  assert (B1 : (-2 < 1 + k' - k)%Z).
  { apply lt_IZR. destruct (Rlt_dec (-2) (IZR (1 + k' - k))) as [H|H];
      [exact H|]. exfalso.
    assert (Hm : IZR (1 + k' - k) = -2 \/ IZR (1 + k' - k) <= -3).
    { destruct (Z_le_gt_dec (1 + k' - k) (-3)) as [Hz|Hz].
      - right. apply IZR_le in Hz. exact Hz.
      - left. assert (Hz' : (1 + k' - k <= -2)%Z)
          by (apply le_IZR; lra).
        assert (Hq : (1 + k' - k = -2)%Z) by lia. now rewrite Hq. }
    destruct Hm as [Hm|Hm]; nra. }
  assert (B2 : (1 + k' - k < 2)%Z).
  { apply lt_IZR. destruct (Rlt_dec (IZR (1 + k' - k)) 2) as [H|H];
      [exact H|]. exfalso.
    assert (Hm : IZR (1 + k' - k) = 2 \/ 3 <= IZR (1 + k' - k)).
    { destruct (Z_le_gt_dec 3 (1 + k' - k)) as [Hz|Hz].
      - right. apply IZR_le in Hz. exact Hz.
      - left. assert (Hz' : (2 <= 1 + k' - k)%Z)
          by (apply le_IZR; lra).
        assert (Hq : (1 + k' - k = 2)%Z) by lia. now rewrite Hq. }
    destruct Hm as [Hm|Hm]; nra. }
  assert (C : (1 + k' - k = -1 \/ 1 + k' - k = 0 \/ 1 + k' - k = 1)%Z)
    by lia.
  destruct C as [C|[C|C]]; rewrite C in D.
  - exfalso. assert (v = PI) by lra. assert (v' = - PI) by lra.
    specialize (Hi H). specialize (Lo' H0). lra.
  - left. f_equal. lra.
  - right. split; f_equal; lra.
Qed.

(** X11.  The angle normalisation has the period 2 pi except at the
    odd multiples of pi: adding 2 pi to a finite angle gives the same
    normalised value, unless that value is -pi, in which case the angle
    shifted by 2 pi is normalised to pi.  The value -pi is only produced
    from angles that are at most -pi, and the value pi only from angles
    that are at least pi. *)
Theorem normalize_angle_period (r : R) :
  (normalize_angle (Fin (r + 2 * PI)) = normalize_angle (Fin r)
   \/ (normalize_angle (Fin r) = Fin (- PI)
       /\ normalize_angle (Fin (r + 2 * PI)) = Fin PI))
  /\ (normalize_angle (Fin r) = Fin (- PI) -> r <= - PI)
  /\ (normalize_angle (Fin r) = Fin PI -> PI <= r).
Proof.
  split; [apply normalize_angle_shift|].
  destruct (normalize_angle_direction r) as [v [E [_ [_ [Lo Hi]]]]].
  rewrite E. split; intros H; injection H as H; [now apply Lo|now apply Hi].
Qed.

Lemma normalize_angle_period_witness :
  (normalize_angle (Fin (- PI)) = Fin (- PI) -> - PI <= - PI)
  /\ (normalize_angle (Fin PI) = Fin PI -> PI <= PI).
Proof.
  split.
  - exact (proj1 (proj2 (normalize_angle_period (- PI)))).
  - exact (proj2 (proj2 (normalize_angle_period PI))).
Defined.
